(** * lamenv: binding environment variables onto Go values

    A shallow embedding of [lamenv.go].

    - Go strings are byte strings and are modelled by [string]; the functions
      of the packages [strings] and [strconv] that the code calls are written
      out below, the case mappings on ASCII letters only.
    - [reflect.Type] and [reflect.Value] become the inductive types [type] and
      [Value].  A value is a tree: what a pointer or a map refers to is held
      in place, so two pointers never share a target.
    - [int] and [uint] have 64 bits ([strconv.IntSize]).
    - The functions mutate their target in place and return an error; here
      each returns an [outcome]: the target after the call, the receiver
      after the call, and the error.
    - The process environment is a list of [NAME=value] entries, passed to
      every function that reads it.
    - [strconv.ParseFloat] and the shape prober [newRing]/[guessPrefix] (in
      another file of the package) are parameters of the decoder. *)

From Stdlib Require Import String Ascii List ZArith Lia Bool Arith Finite.
From Stdlib Require Import DecimalString DecimalNat.
From Stdlib Require Import SpecFloat.
Import ListNotations.

Local Open Scope string_scope.
Local Open Scope list_scope.

(** ** The [strings] package (byte level) *)

Module strings.

Definition upperByte (c : ascii) : ascii :=
  let n := nat_of_ascii c in
  if (97 <=? n)%nat && (n <=? 122)%nat then ascii_of_nat (n - 32) else c.

Definition lowerByte (c : ascii) : ascii :=
  let n := nat_of_ascii c in
  if (65 <=? n)%nat && (n <=? 90)%nat then ascii_of_nat (n + 32) else c.

Fixpoint mapBytes (f : ascii -> ascii) (s : string) : string :=
  match s with
  | EmptyString => EmptyString
  | String c s' => String (f c) (mapBytes f s')
  end.

(** [strings.ToUpper] and [strings.ToLower] on the ASCII letters; bytes
    from 0x80 up are kept as they are. *)
Definition ToUpper (s : string) : string := mapBytes upperByte s.
Definition ToLower (s : string) : string := mapBytes lowerByte s.

Fixpoint HasPrefix (s p : string) : bool :=
  match p, s with
  | EmptyString, _ => true
  | String a p', String b s' => Ascii.eqb a b && HasPrefix s' p'
  | String _ _, EmptyString => false
  end.

Fixpoint drop (n : nat) (s : string) : string :=
  match n, s with
  | O, _ => s
  | S n', String _ s' => drop n' s'
  | S _, EmptyString => EmptyString
  end.

Definition TrimPrefix (s p : string) : string :=
  if HasPrefix s p then drop (String.length p) s else s.

(** [strings.Contains s substr]: [substr] occurs somewhere in [s]. *)
Fixpoint Contains (s substr : string) : bool :=
  HasPrefix s substr ||
  match s with
  | EmptyString => false
  | String _ s' => Contains s' substr
  end.

Fixpoint Join (elems : list string) (sep : string) : string :=
  match elems with
  | [] => EmptyString
  | [e] => e
  | e :: rest => e ++ sep ++ Join rest sep
  end.

(** [strings.Split s sep] for a non-empty separator: [cur] is the piece
    being read and [skip] the number of separator bytes still to pass. *)
Fixpoint splitFrom (sep : string) (skip : nat) (cur : string) (s : string)
  : list string :=
  match s with
  | EmptyString => [cur]
  | String c s' =>
      match skip with
      | S k => splitFrom sep k cur s'
      | O =>
          if HasPrefix s sep
          then cur :: splitFrom sep (String.length sep - 1) EmptyString s'
          else splitFrom sep O (cur ++ String c EmptyString) s'
      end
  end.

Definition Split (s sep : string) : list string :=
  splitFrom sep O EmptyString s.

Fixpoint rev (s : string) : string :=
  match s with
  | EmptyString => EmptyString
  | String c s' => rev s' ++ String c EmptyString
  end.

(** The UTF-8 encodings of the runes for which [unicode.IsSpace] holds:
    U+0009..U+000D, U+0020, U+0085, U+00A0, U+1680, U+2000..U+200A,
    U+2028, U+2029, U+202F, U+205F and U+3000. *)
Definition spaceRunes : list string :=
  map (fun n => String (ascii_of_nat n) EmptyString) [9; 10; 11; 12; 13; 32]%nat
  ++ map (fun n => String (ascii_of_nat 194) (String (ascii_of_nat n) EmptyString))
       [133; 160]%nat
  ++ [String (ascii_of_nat 225) (String (ascii_of_nat 154) (String (ascii_of_nat 128) EmptyString))]
  ++ map (fun n => String (ascii_of_nat 226) (String (ascii_of_nat 128)
                     (String (ascii_of_nat n) EmptyString)))
       [128; 129; 130; 131; 132; 133; 134; 135; 136; 137; 138; 168; 169; 175]%nat
  ++ [String (ascii_of_nat 226) (String (ascii_of_nat 129) (String (ascii_of_nat 159) EmptyString));
      String (ascii_of_nat 227) (String (ascii_of_nat 128) (String (ascii_of_nat 128) EmptyString))].

(** The length of the white-space rune that [s] starts with, if any. *)
Definition leadingSpace (runes : list string) (s : string) : option nat :=
  option_map String.length (find (HasPrefix s) runes).

(** Dropping leading white space; [fuel] bounds the number of bytes. *)
Fixpoint trimLeft (runes : list string) (fuel : nat) (s : string) : string :=
  match fuel with
  | O => s
  | S fuel' =>
      match leadingSpace runes s with
      | Some n => trimLeft runes fuel' (drop n s)
      | None => s
      end
  end.

Definition TrimLeftSpace (s : string) : string :=
  trimLeft spaceRunes (String.length s) s.

Definition TrimRightSpace (s : string) : string :=
  rev (trimLeft (map rev spaceRunes) (String.length s) (rev s)).

Definition TrimSpace (s : string) : string :=
  TrimRightSpace (TrimLeftSpace s).

End strings.

(** ** The [strconv] package *)

Module strconv.

Local Open Scope Z_scope.

Inductive numErr : Type := ErrSyntax | ErrRange.

(** [*strconv.NumError]. *)
Record NumError : Type := mkNumError
  { Func : string; Num : string; Err : numErr }.

Definition syntaxError (fn str : string) : NumError := mkNumError fn str ErrSyntax.
Definition rangeError (fn str : string) : NumError := mkNumError fn str ErrRange.

(** [strconv.IntSize]: the size of [int] and [uint] on a 64-bit platform. *)
Definition IntSize : Z := 64.

Definition Itoa (i : nat) : string := NilEmpty.string_of_uint (Nat.to_uint i).

Definition ParseBool (str : string) : bool + NumError :=
  if existsb (String.eqb str) ["1"; "t"; "T"; "true"; "TRUE"; "True"] then inl true
  else if existsb (String.eqb str) ["0"; "f"; "F"; "false"; "FALSE"; "False"] then inl false
  else inr (syntaxError "ParseBool" str).

Definition lower (c : ascii) : nat := Nat.lor (nat_of_ascii c) 32.

(** The digit a byte stands for in [ParseUint], before the check against
    the base. *)
Definition digitOf (c : ascii) : option Z :=
  let n := nat_of_ascii c in
  if (48 <=? n)%nat && (n <=? 57)%nat then Some (Z.of_nat (n - 48))
  else if (97 <=? lower c)%nat && (lower c <=? 122)%nat
       then Some (Z.of_nat (lower c - 97 + 10))
       else None.

Definition maxUint64 : Z := 2 ^ 64 - 1.

(** The loop of [ParseUint] for a base other than 0: [n] is the value
    read so far, held in a [uint64]. *)
Fixpoint parseDigits (base maxVal : Z) (s0 : string) (n : Z) (s : string)
  : Z + NumError :=
  match s with
  | EmptyString => inl n
  | String c s' =>
      match digitOf c with
      | None => inr (syntaxError "ParseUint" s0)
      | Some d =>
          if d >=? base then inr (syntaxError "ParseUint" s0)
          else if n >=? maxUint64 / base + 1 then inr (rangeError "ParseUint" s0)
          else
            let n0 := n * base in
            let n1 := (n0 + d) mod 2 ^ 64 in
            if (n1 <? n0) || (n1 >? maxVal) then inr (rangeError "ParseUint" s0)
            else parseDigits base maxVal s0 n1 s'
      end
  end.

(** [strconv.ParseUint s base bitSize] for [2 <= base <= 36]. *)
Definition ParseUint (s : string) (base bitSize : Z) : Z + NumError :=
  match s with
  | EmptyString => inr (syntaxError "ParseUint" s)
  | _ =>
      let bitSize := if bitSize =? 0 then IntSize else bitSize in
      parseDigits base (2 ^ bitSize - 1) s 0 s
  end.

(** [strconv.ParseInt s base bitSize] for [2 <= base <= 36]. *)
Definition ParseInt (s : string) (base bitSize : Z) : Z + NumError :=
  match s with
  | EmptyString => inr (syntaxError "ParseInt" s)
  | String c rest =>
      let neg := Ascii.eqb c "-" in
      let s1 := if Ascii.eqb c "+" || neg then rest else s in
      let bits := if bitSize =? 0 then IntSize else bitSize in
      let cutoff := 2 ^ (bits - 1) in
      match ParseUint s1 base bitSize with
      | inr (mkNumError _ _ ErrSyntax) => inr (syntaxError "ParseInt" s)
      | inr (mkNumError _ _ ErrRange) => inr (rangeError "ParseInt" s)
      | inl un =>
          if negb neg && (un >=? cutoff) then inr (rangeError "ParseInt" s)
          else if neg && (un >? cutoff) then inr (rangeError "ParseInt" s)
          else inl (if neg then - un else un)
      end
  end.

End strconv.

(** ** The [reflect] package: kinds, types, struct tags and values *)

Module reflect.

Inductive Kind : Type :=
| Bool | Int | Int8 | Int16 | Int32 | Int64
| Uint | Uint8 | Uint16 | Uint32 | Uint64 | Uintptr
| Float32 | Float64 | Complex64 | Complex128
| Array | Chan | Func | Interface | Map | Ptr | Slice | String | Struct
| UnsafePointer.

End reflect.

(** A struct tag in its conventional form, as the [key:"value"] pairs it
    lists, in the order of the text. *)
Definition StructTag : Type := list (string * string).

(** [tag.Lookup(key)]: the value of the first pair with that key. *)
Fixpoint Lookup (tag : StructTag) (key : string) : string * bool :=
  match tag with
  | [] => ("", false)
  | (k, v) :: tag' => if String.eqb k key then (v, true) else Lookup tag' key
  end.

(** [reflect.StructField] without its type; a field is exported when its
    [PkgPath] is empty. *)
Record StructField : Type := mkField
  { Name : string; PkgPath : string; Tag : StructTag }.

Unset Elimination Schemes.

(** [reflect.Type].  [Basic k] is a type of any kind other than pointer,
    slice, map and struct. *)
Inductive type : Type :=
| Basic (k : reflect.Kind)
| PtrTo (elem : type)
| SliceOf (elem : type)
| MapOf (key elem : type)
| StructOf (fields : list (StructField * type)).

Definition KindOf (t : type) : reflect.Kind :=
  match t with
  | Basic k => k
  | PtrTo _ => reflect.Ptr
  | SliceOf _ => reflect.Slice
  | MapOf _ _ => reflect.Map
  | StructOf _ => reflect.Struct
  end.

(** An addressable [reflect.Value], as a tree: a pointer and a map are nil
    or hold what they refer to, the integers of every width share [VInt]
    and [VUint], and [VOther] stands for a value of a kind that the package
    never writes (complex numbers, channels, arrays, ...). *)
Inductive Value : Type :=
| VBool (b : bool)
| VInt (i : Z)
| VUint (u : Z)
| VFloat (f : spec_float)
| VString (s : string)
| VOther (id : nat)
| VPtr (p : option Value)
| VSlice (elems : list Value)
| VMap (m : option (list (Value * Value)))
| VStruct (fields : list Value).

Set Elimination Schemes.

(** [reflect.Zero]. *)
Fixpoint Zero (t : type) : Value :=
  match t with
  | Basic k =>
      match k with
      | reflect.Bool => VBool false
      | reflect.Int | reflect.Int8 | reflect.Int16 | reflect.Int32
      | reflect.Int64 => VInt 0
      | reflect.Uint | reflect.Uint8 | reflect.Uint16 | reflect.Uint32
      | reflect.Uint64 | reflect.Uintptr => VUint 0
      | reflect.Float32 | reflect.Float64 => VFloat (S754_zero false)
      | reflect.String => VString ""
      | _ => VOther 0
      end
  | PtrTo _ => VPtr None
  | SliceOf _ => VSlice []
  | MapOf _ _ => VMap None
  | StructOf fields => VStruct (map (fun '(_, ft) => Zero ft) fields)
  end.

(** [reflect.New(t)]: a pointer to a new zero value of the type. *)
Definition reflectNew (t : type) : Value := VPtr (Some (Zero t)).

(** The width in bits of an integer kind. *)
Definition bitsOf (k : reflect.Kind) : Z :=
  match k with
  | reflect.Int8 | reflect.Uint8 => 8
  | reflect.Int16 | reflect.Uint16 => 16
  | reflect.Int32 | reflect.Uint32 => 32
  | reflect.Int64 | reflect.Uint64 => 64
  | _ => strconv.IntSize
  end.

(** The conversion of an [int64] to a signed integer of [bits] bits. *)
Definition wrapInt (bits x : Z) : Z :=
  (x + 2 ^ (bits - 1)) mod 2 ^ bits - 2 ^ (bits - 1).

(** The conversion of a [uint64] to an unsigned integer of [bits] bits. *)
Definition wrapUint (bits x : Z) : Z := x mod 2 ^ bits.

(** [v.SetInt(x)] and [v.SetUint(x)] on a value of kind [k]. *)
Definition SetInt (k : reflect.Kind) (x : Z) : Value := VInt (wrapInt (bitsOf k) x).
Definition SetUint (k : reflect.Kind) (x : Z) : Value := VUint (wrapUint (bitsOf k) x).

(** [m.SetMapIndex(key, value)] on the entries of a map with string keys. *)
Definition keyEqb (a b : Value) : bool :=
  match a, b with
  | VString x, VString y => String.eqb x y
  | _, _ => false
  end.

Fixpoint SetMapIndex (m : list (Value * Value)) (key value : Value)
  : list (Value * Value) :=
  match m with
  | [] => [(key, value)]
  | (k, x) :: m' =>
      if keyEqb k key then (k, value) :: m' else (k, x) :: SetMapIndex m' key value
  end.

(** ** Errors *)

Inductive error : Type :=
| NumError (e : strconv.NumError)   (* from the strconv package *)
| Errorf (msg : string)             (* fmt.Errorf in decodeMap *)
| GuessError (msg : string)         (* whatever guessPrefix returns *)
| OutOfFuel.                        (* never returned, see [decode_total] *)

(** The two families of errors of the specification. *)
Definition isParseError (e : error) : Prop :=
  match e with NumError _ => True | _ => False end.

Definition isConfigError (e : error) : Prop :=
  match e with Errorf _ => True | _ => False end.

(** ** Names, tags and the process environment *)

Definition defaultTagSupported : list string := ["yaml"; "json"; "mapstructure"].

Definition buildEnvVariable (parts : list string) : string :=
  strings.Join (map strings.ToUpper parts) "_".

Fixpoint lookupTag (tag : StructTag) (tagSupports : list string) : string * bool :=
  match tagSupports with
  | [] => ("", false)
  | tagSupport :: rest =>
      let '(s, ok) := Lookup tag tagSupport in
      if ok then (s, ok) else lookupTag tag rest
  end.

(** [append(parts, s)], always taken as a fresh slice: the callers never
    keep the result beyond the call it is passed to. *)
Definition append {A : Type} (parts : list A) (s : A) : list A := parts ++ [s].

(** The process environment, [os.Environ()]: entries of the form
    [NAME=value]. *)
Definition Environ : Type := list string.

(** An entry cut at its first [=]. *)
Fixpoint cut (s : string) : option (string * string) :=
  match s with
  | EmptyString => None
  | String c s' =>
      if Ascii.eqb c "=" then Some (EmptyString, s')
      else match cut s' with
           | Some (k, v) => Some (String c k, v)
           | None => None
           end
  end.

(** [os.LookupEnv]: the first entry for the key wins. *)
Fixpoint LookupEnv (environ : Environ) (key : string) : string * bool :=
  match environ with
  | [] => ("", false)
  | e :: environ' =>
      match cut e with
      | Some (k, v) =>
          if negb (String.eqb key "") && String.eqb k key then (v, true)
          else LookupEnv environ' key
      | None => LookupEnv environ' key
      end
  end.

Definition lookupEnv (environ : Environ) (parts : list string)
  : string * string * bool :=
  let variable := buildEnvVariable parts in
  let '(value, ok) := LookupEnv environ variable in
  (variable, value, ok).

Fixpoint contains_from (environ : Environ) (variable : string) : bool :=
  match environ with
  | [] => false
  | e :: environ' =>
      match strings.Split e "=" with
      | [name; _] =>
          if strings.Contains name variable then true
          else contains_from environ' variable
      | _ => contains_from environ' variable
      end
  end.

Definition contains (environ : Environ) (parts : list string) : bool :=
  contains_from environ (buildEnvVariable parts).

(** What comes before the last segment in the name of a path. *)
Definition stem (parts : list string) : string :=
  match parts with
  | [] => EmptyString
  | _ => (buildEnvVariable parts ++ "_")%string
  end.

(** ** The [Lamenv] struct *)

(** What a call does with the environment, newest event first.  This is a
    ghost field: no function reads it. *)
Inductive event : Type :=
| EvEnviron                   (* os.Environ() was scanned *)
| EvLookupEnv (name : string) (* os.LookupEnv(name) *)
| EvDelete (name : string)    (* delete(l.env, name) *)
| EvRange (name : string).    (* range l.env produced name *)

(** [env] is a Go map used as a set; it is kept as the list of its keys, and
    [range l.env] visits them in the order of the list, one of the orders Go
    may choose. *)
Record Lamenv : Type := mkLamenv
  { TagSupports : list string;
    env : list string;
    history : list event }.

Definition record (ev : event) (l : Lamenv) : Lamenv :=
  mkLamenv (TagSupports l) (env l) (ev :: history l).

Definition mem (x : string) (xs : list string) : bool := existsb (String.eqb x) xs.

(** [delete(l.env, variable)]. *)
Definition delete (variable : string) (l : Lamenv) : Lamenv :=
  mkLamenv (TagSupports l)
           (filter (fun e => negb (String.eqb e variable)) (env l))
           (EvDelete variable :: history l).

Fixpoint environNames (environ : Environ) (acc : list string) : list string :=
  match environ with
  | [] => acc
  | e :: environ' =>
      match strings.Split e "=" with
      | [name; _] => environNames environ' (if mem name acc then acc else acc ++ [name])
      | _ => environNames environ' acc
      end
  end.

Definition New (environ : Environ) : Lamenv :=
  mkLamenv ["yaml"; "json"; "mapstructure"] (environNames environ []) [].

Definition AddTagSupport (l : Lamenv) (tags : list string) : Lamenv :=
  mkLamenv (fold_left append tags (TagSupports l)) (env l) (history l).

Definition OverrideTagSupport (l : Lamenv) (tags : list string) : Lamenv :=
  mkLamenv tags (env l) (history l).

(** ** The decoder *)

(** What a decoding function leaves behind: the target as it stands after
    the call (also when the call fails: the writes are done in place), the
    receiver, and the error returned. *)
Definition outcome : Type := Value * Lamenv * option error.

Definition valueOf (o : outcome) : Value := fst (fst o).
Definition stateOf (o : outcome) : Lamenv := snd (fst o).
Definition errorOf (o : outcome) : option error := snd o.

Definition decoder : Type := Value -> list string -> Lamenv -> outcome.

Section Decode.

(** The process environment of the run. *)
Variable environ : Environ.

(** [strconv.ParseFloat] and the conversion to [float32] that [SetFloat]
    does on a [float32] target: their rounding is not part of this
    development. *)
Variable ParseFloat : string -> Z -> spec_float + strconv.NumError.
Variable float32 : spec_float -> spec_float.

(** The shape prober of the package ([newRing] and [guessPrefix]) lives in
    another file of the repository; it is taken as a pair of pure
    functions. *)
Variable ring : Type.
Variable newRing : type -> list string -> ring.
Variable guessPrefix : list string -> ring -> string * option string.

Definition decodeString (v : Value) (input : string) : Value := VString input.

Definition decodeBool (v : Value) (input : string) : Value * option error :=
  match strconv.ParseBool (strings.TrimSpace input) with
  | inr err => (v, Some (NumError err))
  | inl b => (VBool b, None)
  end.

Definition decodeInt (k : reflect.Kind) (v : Value) (input : string)
  : Value * option error :=
  match strconv.ParseInt (strings.TrimSpace input) 10 0 with
  | inr err => (v, Some (NumError err))
  | inl i => (SetInt k i, None)
  end.

Definition decodeUInt (k : reflect.Kind) (v : Value) (input : string)
  : Value * option error :=
  match strconv.ParseUint (strings.TrimSpace input) 10 0 with
  | inr err => (v, Some (NumError err))
  | inl i => (SetUint k i, None)
  end.

Definition SetFloat (k : reflect.Kind) (x : spec_float) : Value :=
  match k with
  | reflect.Float32 => VFloat (float32 x)
  | _ => VFloat x
  end.

Definition decodeFloat (k : reflect.Kind) (v : Value) (input : string)
  : Value * option error :=
  match ParseFloat (strings.TrimSpace input) 10 with
  | inr err => (v, Some (NumError err))
  | inl i => (SetFloat k i, None)
  end.

(** [decodeNative] on a value of kind [k]. *)
Definition decodeNative (k : reflect.Kind) (v : Value) (input : string)
  : Value * option error :=
  match k with
  | reflect.String => (decodeString v input, None)
  | reflect.Bool => decodeBool v input
  | reflect.Int | reflect.Int8 | reflect.Int16 | reflect.Int32
  | reflect.Int64 => decodeInt k v input
  | reflect.Uint | reflect.Uint8 | reflect.Uint16 | reflect.Uint32
  | reflect.Uint64 => decodeUInt k v input
  | reflect.Float32 | reflect.Float64 => decodeFloat k v input
  | _ => (v, None)
  end.

(** The default case of the switch in [decode]. *)
Definition decodeDefault (k : reflect.Kind) : decoder := fun v parts l =>
  let '(variable, input, ok) := lookupEnv environ parts in
  let l := record (EvLookupEnv variable) l in
  if ok then
    let l := delete variable l in
    let '(v', err) := decodeNative k v input in
    (v', l, err)
  else (v, l, None).

(** [contains], with its scan of the environment noted in the history. *)
Definition probe (parts : list string) (l : Lamenv) : bool * Lamenv :=
  (contains environ parts, record EvEnviron l).

(** An upper bound on the number of indices a slice can be given: one
    more than the number of substrings of the names of the environment. *)
Definition sliceBound : nat :=
  S (fold_right (fun name n => (S (String.length name) * S (String.length name) + n)%nat)
                O (environNames environ [])).

(** The loop of [decodeSlice], from index [i]: [elems] is the content of
    the slice so far and [decodeElem] is [decode] at the element type. *)
Fixpoint sliceLoop (decodeElem : decoder) (zero : Value) (parts : list string)
         (fuel i : nat) (elems : list Value) (l : Lamenv)
  : list Value * Lamenv * option error :=
  let '(ok, l) := probe (append parts (strconv.Itoa i)) l in
  if ok then
    match fuel with
    | O => (elems, l, Some OutOfFuel)
    | S fuel' =>
        let '(tmp, l, err) := decodeElem zero (append parts (strconv.Itoa i)) l in
        match err with
        | Some e => (elems, l, Some e)
        | None => sliceLoop decodeElem zero parts fuel' (S i) (elems ++ [tmp]) l
        end
    end
  else (elems, l, None).

Definition sliceElems (v : Value) : list Value :=
  match v with VSlice elems => elems | _ => [] end.

Definition decodeSlice (decodeElem : decoder) (sliceType : type) : decoder :=
  fun v parts l =>
    let '(elems, l, err) :=
      sliceLoop decodeElem (Zero sliceType) parts sliceBound 0 (sliceElems v) l in
    (VSlice elems, l, err).

(** One turn of the loop of [decodeStruct], for a field [attrField] with
    value [attr]; [decodeAttr] is [decode] at the type of the field. *)
Definition decodeField (attrField : StructField) (decodeAttr : decoder) : decoder :=
  fun attr parts l =>
    if negb (String.eqb (PkgPath attrField) "") then (attr, l, None)
    else
      let '(attrName, ok) := lookupTag (Tag attrField) (TagSupports l) in
      if ok then
        if String.eqb attrName "-" then (attr, l, None)
        else if String.eqb attrName ",squash" || String.eqb attrName ",inline"
        then decodeAttr attr parts l
        else if strings.Contains attrName "omitempty" then
          let '(found, l) := probe (append parts attrName) l in
          if negb found then (attr, l, None)
          else decodeAttr attr (append parts attrName) l
        else decodeAttr attr (append parts attrName) l
      else decodeAttr attr (append parts (Name attrField)) l.

Fixpoint structLoop (fields : list (StructField * decoder)) (attrs : list Value)
         (parts : list string) (l : Lamenv) : list Value * Lamenv * option error :=
  match fields, attrs with
  | (attrField, decodeAttr) :: fields', attr :: attrs' =>
      let '(attr', l, err) := decodeField attrField decodeAttr attr parts l in
      match err with
      | Some e => (attr' :: attrs', l, Some e)
      | None =>
          let '(attrs'', l, err) := structLoop fields' attrs' parts l in
          (attr' :: attrs'', l, err)
      end
  | _, _ => (attrs, l, None)
  end.

Definition structFields (v : Value) : list Value :=
  match v with VStruct attrs => attrs | _ => [] end.

Definition decodeStruct (fields : list (StructField * decoder)) : decoder :=
  fun v parts l =>
    let '(attrs, l, err) := structLoop fields (structFields v) parts l in
    (VStruct attrs, l, err).

(** The loop of [decodeMap] over [keys], the keys that [l.env] held when
    the loop started; a key deleted since is not produced. *)
Fixpoint mapLoop (decodeElem : decoder) (zero : Value) (parser : ring)
         (parts : list string) (keys : list string)
         (valMap : list (Value * Value)) (l : Lamenv)
  : list (Value * Value) * Lamenv * option error :=
  match keys with
  | [] => (valMap, l, None)
  | e :: keys' =>
      if negb (mem e (env l)) then mapLoop decodeElem zero parser parts keys' valMap l
      else
        let l := record (EvRange e) l in
        let variable := buildEnvVariable parts in
        let trimEnv := strings.TrimPrefix e (variable ++ "_") in
        if String.eqb trimEnv e
        then mapLoop decodeElem zero parser parts keys' valMap l
        else
          let futureParts := strings.Split trimEnv "_" in
          match guessPrefix futureParts parser with
          | (_, Some msg) => (valMap, l, Some (GuessError msg))
          | (prefix, None) =>
              if (String.length prefix =? 0)%nat
              then mapLoop decodeElem zero parser parts keys' valMap l
              else
                let keyString := strings.ToLower prefix in
                let '(value, l, err) := decodeElem zero (append parts keyString) l in
                match err with
                | Some e => (valMap, l, Some e)
                | None =>
                    let key := VString (strings.TrimSpace (strings.ToLower keyString)) in
                    mapLoop decodeElem zero parser parts keys'
                            (SetMapIndex valMap key value) l
                end
          end
  end.

Definition decodeMap (decodeElem : decoder) (keyType valueType : type) : decoder :=
  fun v parts l =>
    match KindOf keyType with
    | reflect.String =>
        match KindOf valueType with
        | reflect.Map =>
            (v, l, Some (Errorf "unable to unmarshal a map of a map, it's not a determinist datamodel"))
        | _ =>
            let isNil := match v with VMap (Some _) => false | _ => true end in
            let valMap := match v with VMap (Some m) => m | _ => [] end in
            let parser := newRing valueType (TagSupports l) in
            let '(valMap', l, err) :=
              mapLoop decodeElem (Zero valueType) parser parts (env l) valMap l in
            match err with
            | Some e => ((if isNil then v else VMap (Some valMap')), l, Some e)
            | None => (VMap (Some valMap'), l, None)
            end
        end
    | _ => (v, l, Some (Errorf "unable to unmarshal a map with a key that is not a string"))
    end.

(** The first step of [decode]: a pointer is followed, after it has been
    given a fresh target when it is nil; [switch] is the rest of
    [decode]. *)
Definition decodeWith (switch : type -> decoder) (t : type) : decoder :=
  fun conf parts l =>
    match t with
    | PtrTo elem =>
        let v := match conf with VPtr (Some v) => v | _ => Zero elem end in
        let '(v', l, err) := switch elem v parts l in
        (VPtr (Some v'), l, err)
    | _ => switch t conf parts l
    end.

(** The switch of [decode] on the kind of the value. *)
Fixpoint decodeKind (t : type) : decoder :=
  match t with
  | MapOf keyType valueType =>
      decodeMap (decodeWith decodeKind valueType) keyType valueType
  | SliceOf sliceType =>
      decodeSlice (decodeWith decodeKind sliceType) sliceType
  | StructOf fields =>
      decodeStruct (map (fun '(f, ft) => (f, decodeWith decodeKind ft)) fields)
  | _ => decodeDefault (KindOf t)
  end.

Definition decode : type -> decoder := decodeWith decodeKind.

(** The method [Unmarshal] of [Lamenv]; [t] is the type of [object]. *)
Definition Unmarshal_ (l : Lamenv) (t : type) (object : Value) (parts : list string)
  : outcome :=
  decode t object parts l.

(** The function [Unmarshal]: a new [Lamenv] for each call.  The object is
    to be a pointer that is not nil, as the documentation asks. *)
Definition Unmarshal (t : type) (object : Value) (parts : list string) : outcome :=
  Unmarshal_ (New environ) t object parts.

End Decode.

(** ** Induction on types *)

Section TypeInduction.

Variable P : type -> Prop.
Hypothesis P_Basic : forall k, P (Basic k).
Hypothesis P_PtrTo : forall elem, P elem -> P (PtrTo elem).
Hypothesis P_SliceOf : forall elem, P elem -> P (SliceOf elem).
Hypothesis P_MapOf : forall key elem, P key -> P elem -> P (MapOf key elem).
Hypothesis P_StructOf :
  forall fields, Forall (fun f => P (snd f)) fields -> P (StructOf fields).

Fixpoint type_ind (t : type) : P t :=
  match t with
  | Basic k => P_Basic k
  | PtrTo elem => P_PtrTo elem (type_ind elem)
  | SliceOf elem => P_SliceOf elem (type_ind elem)
  | MapOf key elem => P_MapOf key elem (type_ind key) (type_ind elem)
  | StructOf fields =>
      P_StructOf fields
        ((fix all (fs : list (StructField * type)) : Forall (fun f => P (snd f)) fs :=
            match fs with
            | [] => Forall_nil _
            | f :: fs' => Forall_cons f (type_ind (snd f)) (all fs')
            end) fields)
  end.

End TypeInduction.

(** ** The literals that the scalar codec accepts *)

Module Literal.

Local Open Scope Z_scope.

(** The value of a run of decimal digits read after [acc]. *)
Fixpoint digits (acc : Z) (s : string) : option Z :=
  match s with
  | EmptyString => Some acc
  | String c s' =>
      let n := nat_of_ascii c in
      if (48 <=? n)%nat && (n <=? 57)%nat
      then digits (10 * acc + (Z.of_nat n - 48)) s'
      else None
  end.

(** A non-empty run of decimal digits. *)
Definition unsigned (s : string) : option Z :=
  match s with
  | EmptyString => None
  | _ => digits 0 s
  end.

(** An optional sign and a non-empty run of decimal digits. *)
Definition signed (s : string) : option Z :=
  match s with
  | String "+" s' => unsigned s'
  | String "-" s' => option_map Z.opp (unsigned s')
  | _ => unsigned s
  end.

Definition boolean (s : string) : option bool :=
  if mem s ["true"; "TRUE"; "True"; "t"; "T"; "1"] then Some true
  else if mem s ["false"; "FALSE"; "False"; "f"; "F"; "0"] then Some false
  else None.

Definition isSigned (k : reflect.Kind) : bool :=
  match k with
  | reflect.Int | reflect.Int8 | reflect.Int16 | reflect.Int32
  | reflect.Int64 => true
  | _ => false
  end.

Definition isUnsigned (k : reflect.Kind) : bool :=
  match k with
  | reflect.Uint | reflect.Uint8 | reflect.Uint16 | reflect.Uint32
  | reflect.Uint64 => true
  | _ => false
  end.

(** The value that the text [input] of a variable denotes for a field of
    kind [k], when it is a literal that the codec accepts for that kind: any
    text for a string, kept as it is, and, around the surrounding white
    space, one of the twelve spellings of a boolean, or a decimal integer
    that fits the width of the kind.  This is narrower than section 4.3 of
    the specification, which is [SpecLiteral.value] below.  The
    floating-point kinds are left to [strconv.ParseFloat]. *)
Definition value (k : reflect.Kind) (input : string) : option Value :=
  let s := strings.TrimSpace input in
  match k with
  | reflect.String => Some (VString input)
  | reflect.Bool => option_map VBool (boolean s)
  | _ =>
      if isSigned k then
        match signed s with
        | Some n =>
            if (- 2 ^ (bitsOf k - 1) <=? n) && (n <? 2 ^ (bitsOf k - 1))
            then Some (VInt n) else None
        | None => None
        end
      else if isUnsigned k then
        match unsigned s with
        | Some n => if n <? 2 ^ bitsOf k then Some (VUint n) else None
        | None => None
        end
      else None
  end.

End Literal.

Section LiteralValue.

Variable ParseFloat : string -> Z -> spec_float + strconv.NumError.
Variable float32 : spec_float -> spec_float.

(** The value that the text of a variable denotes for a field of kind [k]:
    [Literal.value], and for the floating-point kinds the number that
    [strconv.ParseFloat] reads in the text without its surrounding white
    space, as it is for a [float64] and converted to [float32] for a
    [float32]. *)
Definition literalValue (k : reflect.Kind) (input : string) : option Value :=
  match k with
  | reflect.Float32 =>
      match ParseFloat (strings.TrimSpace input) 10 with
      | inl f => Some (VFloat (float32 f))
      | inr _ => None
      end
  | reflect.Float64 =>
      match ParseFloat (strings.TrimSpace input) 10 with
      | inl f => Some (VFloat f)
      | inr _ => None
      end
  | _ => Literal.value k input
  end.

End LiteralValue.

(** ** What the specification calls a literal *)

Module SpecLiteral.

Local Open Scope Z_scope.

(** The boolean words of section 4.3: true, false, 1, 0, t and f, in any
    casing. *)
Definition boolean (s : string) : option bool :=
  let w := strings.ToLower s in
  if mem w ["true"; "1"; "t"] then Some true
  else if mem w ["false"; "0"; "f"] then Some false
  else None.

(** The value of a literal after section 4.3 of the specification: every
    input is first trimmed of its surrounding white space; a string is then
    taken as it is, a boolean is one of the six words in any casing, and an
    integer is a decimal numeral that fits the declared width of the target.
    Floating-point literals are not described here. *)
Definition value (k : reflect.Kind) (input : string) : option Value :=
  let s := strings.TrimSpace input in
  match k with
  | reflect.String => Some (VString s)
  | reflect.Bool => option_map VBool (boolean s)
  | _ =>
      if Literal.isSigned k then
        match Literal.signed s with
        | Some n =>
            if (- 2 ^ (bitsOf k - 1) <=? n) && (n <? 2 ^ (bitsOf k - 1))
            then Some (VInt n) else None
        | None => None
        end
      else if Literal.isUnsigned k then
        match Literal.unsigned s with
        | Some n => if n <? 2 ^ bitsOf k then Some (VUint n) else None
        | None => None
        end
      else None
  end.

End SpecLiteral.

(** ** Types without sequences and mappings *)

Fixpoint plain (t : type) : bool :=
  match t with
  | Basic _ => true
  | PtrTo elem => plain elem
  | SliceOf _ => false
  | MapOf _ _ => false
  | StructOf fields => forallb (fun '(_, ft) => plain ft) fields
  end.

(** ** The steps of a call on the receiver *)

Inductive step : Lamenv -> Lamenv -> Prop :=
| step_environ : forall l, step l (record EvEnviron l)
| step_lookup : forall l name, step l (record (EvLookupEnv name) l)
| step_delete : forall l name, step l (delete name l)
| step_range : forall l e, mem e (env l) = true -> step l (record (EvRange e) l).

Inductive steps : Lamenv -> Lamenv -> Prop :=
| steps_refl : forall l, steps l l
| steps_step : forall l1 l2 l3, steps l1 l2 -> step l2 l3 -> steps l1 l3.

(** A decoder moves the receiver by steps. *)
Definition stepwise (d : decoder) : Prop :=
  forall v parts l, steps l (stateOf (d v parts l)).

(** Running a decoder again on what it left, with the same tag list, gives
    the same target and the same error. *)
Definition idempotent (d : decoder) : Prop :=
  forall v parts l l',
    TagSupports l' = TagSupports l ->
    valueOf (d (valueOf (d v parts l)) parts l') = valueOf (d v parts l)
    /\ errorOf (d (valueOf (d v parts l)) parts l') = errorOf (d v parts l).

(** A decoder never runs out of fuel. *)
Definition terminating (d : decoder) : Prop :=
  forall v parts l, errorOf (d v parts l) <> Some OutOfFuel.

(** In a history (newest event first), no name is produced by [range l.env]
    after it has been deleted. *)
Fixpoint neverRevisited (h : list event) : Prop :=
  match h with
  | [] => True
  | ev :: h' =>
      (forall name, ev = EvRange name -> ~ In (EvDelete name) h') /\ neverRevisited h'
  end.

(** Every name deleted in the history is absent from [l.env]. *)
Definition consumedGone (l : Lamenv) : Prop :=
  forall name, In (EvDelete name) (history l) -> ~ In name (env l).

(** All the substrings of [s], one for each start and length. *)
Definition substrings (s : string) : list string :=
  flat_map (fun start => map (fun len => substring start len s)
                             (seq 0 (S (String.length s))))
           (seq 0 (S (String.length s))).

(** ** Stand-ins for the parameters, for the examples *)

Module Sample.

(** A float parser that accepts nothing. *)
Definition ParseFloat (s : string) (bitSize : Z) : spec_float + strconv.NumError :=
  inr (strconv.syntaxError "ParseFloat" s).

Definition float32 (x : spec_float) : spec_float := x.

Definition ring : Type := type.

Definition newRing (t : type) (tagSupports : list string) : ring := t.

(** Modelled from the spec: the shape prober ([newRing], [guessPrefix]),
    which is not in lamenv.go, for a scalar value shape only, where the
    whole residual is the key.  The examples use it; the theorems hold
    for every prober. *)
Definition guessPrefix (futureParts : list string) (parser : ring)
  : string * option string :=
  match parser with
  | Basic _ => (strings.Join futureParts "_", None)
  | _ => ("", None)
  end.

Definition decode (environ : Environ) : type -> decoder :=
  decode environ ParseFloat float32 ring newRing guessPrefix.

Definition Unmarshal (environ : Environ) (t : type) (object : Value)
           (parts : list string) : Value * option error :=
  let '(v, _, err) := Unmarshal environ ParseFloat float32 ring newRing guessPrefix
                                t object parts in
  (v, err).

Definition int : type := Basic reflect.Int.
Definition str : type := Basic reflect.String.
Definition field (name : string) (tag : StructTag) (t : type) : StructField * type :=
  (mkField name "" tag, t).

(** The example of the documentation of [Unmarshal]. *)
Definition docEnviron : Environ := ["MY_PREFIX_A=1"; "MY_PREFIX_B=2"].
Definition docT : type :=
  StructOf [field "F" [("json", "a,omitempty")] int; field "B" [] int].

(** The same record with the tag [json:"a"] on [F]. *)
Definition docT' : type :=
  StructOf [field "F" [("json", "a")] int; field "B" [] int].

(** Three elements of a sequence, and the same with a gap. *)
Definition seqEnviron : Environ := ["A_0=1"; "A_1=2"; "A_2=3"].
Definition gapEnviron : Environ := ["A_0=1"; "A_2=3"].

(** Two fields with the same name in their tags. *)
Definition twinT : type :=
  StructOf [field "A" [("json", "x")] int; field "B" [("json", "x")] int].

End Sample.

(** ** Further notions for the facts *)

(** The number of bytes [c] in [s]. *)
Fixpoint countByte (c : ascii) (s : string) : nat :=
  match s with
  | EmptyString => 0
  | String x s' => (if Ascii.eqb c x then 1 else 0) + countByte c s'
  end.

(** A string of ASCII bytes: on these the case mappings above are those
    of Go. *)
Fixpoint isASCII (s : string) : bool :=
  match s with
  | EmptyString => true
  | String c s' => (nat_of_ascii c <? 128)%nat && isASCII s'
  end.

(** The kinds that [decodeNative] writes. *)
Definition isNative (k : reflect.Kind) : bool :=
  match k with
  | reflect.String | reflect.Bool
  | reflect.Int | reflect.Int8 | reflect.Int16 | reflect.Int32 | reflect.Int64
  | reflect.Uint | reflect.Uint8 | reflect.Uint16 | reflect.Uint32 | reflect.Uint64
  | reflect.Float32 | reflect.Float64 => true
  | _ => false
  end.

(** Types without mappings. *)
Fixpoint mapFree (t : type) : bool :=
  match t with
  | Basic _ => true
  | PtrTo elem => mapFree elem
  | SliceOf elem => mapFree elem
  | MapOf _ _ => false
  | StructOf fields => forallb (fun '(_, ft) => mapFree ft) fields
  end.

(** The target and the error of a decoder do not depend on the names and
    the history of the receiver. *)
Definition stateless (d : decoder) : Prop :=
  forall v parts l l',
    TagSupports l' = TagSupports l ->
    valueOf (d v parts l') = valueOf (d v parts l)
    /\ errorOf (d v parts l') = errorOf (d v parts l).

(** A decoder fails with parse errors only. *)
Definition parseErrorsOnly (d : decoder) : Prop :=
  forall v parts l e, errorOf (d v parts l) = Some e -> isParseError e.

(** A key written by [decodeMap]: a string in lower case. *)
Definition lowerKey (k : Value) : Prop :=
  exists s, k = VString s /\ strings.ToLower s = s.

(** The entries of a map value. *)
Definition mapEntries (v : Value) : list (Value * Value) :=
  match v with VMap (Some m) => m | _ => [] end.

(** * Facts *)

(** ** The integer parsers against decimal notation *)

Section ParseFacts.

Local Open Scope Z_scope.

Lemma digitOf_decimal : forall c d,
  strconv.digitOf c = Some d -> d < 10 ->
  ((48 <=? nat_of_ascii c)%nat && (nat_of_ascii c <=? 57)%nat = true)
  /\ d = Z.of_nat (nat_of_ascii c) - 48.
Proof.
  intros c d. unfold strconv.digitOf.
  destruct ((48 <=? nat_of_ascii c)%nat && (nat_of_ascii c <=? 57)%nat) eqn:E.
  - intros H _. inversion H. split; [reflexivity|].
    apply andb_true_iff in E. destruct E as [E1 E2].
    apply Nat.leb_le in E1. lia.
  - destruct ((97 <=? strconv.lower c)%nat && (strconv.lower c <=? 122)%nat) eqn:F;
      [|discriminate].
    intros H. inversion H. apply andb_true_iff in F. destruct F as [F1 F2].
    apply Nat.leb_le in F1. lia.
Qed.

Lemma digitOf_of_decimal : forall c,
  (48 <=? nat_of_ascii c)%nat && (nat_of_ascii c <=? 57)%nat = true ->
  strconv.digitOf c = Some (Z.of_nat (nat_of_ascii c) - 48)
  /\ 0 <= Z.of_nat (nat_of_ascii c) - 48 < 10.
Proof.
  intros c E. unfold strconv.digitOf. rewrite E.
  apply andb_true_iff in E. destruct E as [E1 E2].
  apply Nat.leb_le in E1, E2. split; [f_equal; lia | lia].
Qed.

Lemma digitOf_nonneg : forall c d, strconv.digitOf c = Some d -> 0 <= d.
Proof.
  intros c d. unfold strconv.digitOf.
  destruct ((48 <=? nat_of_ascii c)%nat && (nat_of_ascii c <=? 57)%nat).
  - intros H. inversion H. lia.
  - destruct ((97 <=? strconv.lower c)%nat && (strconv.lower c <=? 122)%nat);
      [|discriminate].
    intros H. inversion H. lia.
Qed.

Lemma digits_ge : forall s acc x,
  0 <= acc -> Literal.digits acc s = Some x -> acc <= x.
Proof.
  induction s as [|c s IH]; cbn [Literal.digits]; intros acc x Hacc H.
  - inversion H. lia.
  - revert H.
    destruct ((48 <=? nat_of_ascii c)%nat && (nat_of_ascii c <=? 57)%nat) eqn:E;
      [intros H|discriminate].
    apply andb_true_iff in E. destruct E as [E1 E2]. apply Nat.leb_le in E1, E2.
    apply IH in H; lia.
Qed.

(** The loop of [ParseUint] reads exactly the runs of decimal digits
    whose value fits. *)
Lemma parseDigits_inl : forall maxVal s0 s n x,
  0 <= n -> maxVal <= strconv.maxUint64 ->
  strconv.parseDigits 10 maxVal s0 n s = inl x <->
  Literal.digits n s = Some x /\ x <= maxVal /\ n <= maxVal \/
  (s = EmptyString /\ x = n /\ maxVal < n).
Proof.
  intros maxVal s0. unfold strconv.maxUint64.
  induction s as [|c s IH]; intros n x Hn Hmax;
    cbn [strconv.parseDigits Literal.digits]; unfold strconv.maxUint64.
  - split.
    + intros H. inversion H. subst. destruct (Z_le_gt_dec x maxVal); [left|right]; auto.
      repeat split; auto. lia.
    + intros [[H _]|[_ [H _]]]; [inversion H|subst]; reflexivity.
  - destruct (strconv.digitOf c) as [d|] eqn:D.
    + destruct (d >=? 10) eqn:D10.
      * split; [discriminate|].
        intros [[H _]|[H _]]; [|discriminate].
        destruct (_ && _) eqn:E in H; [|discriminate].
        apply digitOf_of_decimal in E. destruct E as [E1 E2].
        rewrite E1 in D. inversion D. lia.
      * assert (Hd : 0 <= d < 10) by (apply digitOf_nonneg in D; lia).
        destruct (digitOf_decimal c d D (proj2 Hd)) as [E Ed]. rewrite E.
        rewrite <- Ed.
        destruct (n >=? (2 ^ 64 - 1) / 10 + 1) eqn:C.
        { split; [discriminate|].
          intros [[H [Hx Hnm]]|[H _]]; [|discriminate].
          apply digits_ge in H; [|lia].
          assert ((2 ^ 64 - 1) / 10 + 1 <= n) by lia.
          change ((2 ^ 64 - 1) / 10 + 1) with 1844674407370955162 in H0.
          change (2 ^ 64 - 1) with 18446744073709551615 in Hmax. lia. }
        assert (Hn10 : n * 10 <= 2 ^ 64 - 1).
        { assert (n < (2 ^ 64 - 1) / 10 + 1) by lia.
          change ((2 ^ 64 - 1) / 10 + 1) with 1844674407370955162 in H.
          change (2 ^ 64 - 1) with 18446744073709551615. lia. }
        destruct (Z_lt_ge_dec (n * 10 + d) (2 ^ 64)) as [Hlt|Hge].
        { rewrite Z.mod_small by lia.
          replace (n * 10 + d <? n * 10) with false by (symmetry; apply Z.ltb_ge; lia).
          simpl orb.
          destruct (n * 10 + d >? maxVal) eqn:G.
          - split; [discriminate|].
            intros [[H [Hx Hnm]]|[H _]]; [|discriminate].
            replace (10 * n + d) with (n * 10 + d) in H by lia.
            apply digits_ge in H; lia.
          - rewrite IH by lia.
            replace (10 * n + d) with (n * 10 + d) by lia.
            split.
            + intros [[H [Hx Hnm]]|[H1 [H2 H3]]]; [left; repeat split; auto; lia|lia].
            + intros [[H [Hx Hnm]]|[H _]]; [|discriminate].
              left. repeat split; auto. lia. }
        { replace ((n * 10 + d) mod 2 ^ 64) with (n * 10 + d - 2 ^ 64).
          2:{ symmetry. rewrite <- (Z.mod_small (n * 10 + d - 2 ^ 64) (2 ^ 64)) by lia.
              rewrite <- (Z_mod_plus_full (n * 10 + d - 2 ^ 64) 1 (2 ^ 64)).
              f_equal. lia. }
          replace (n * 10 + d - 2 ^ 64 <? n * 10) with true
            by (symmetry; apply Z.ltb_lt; lia).
          simpl orb. split; [discriminate|].
          intros [[H [Hx Hnm]]|[H _]]; [|discriminate].
          replace (10 * n + d) with (n * 10 + d) in H by lia.
          apply digits_ge in H; lia. }
    + split; [discriminate|].
      intros [[H _]|[H _]]; [|discriminate].
      destruct (_ && _) eqn:E in H; [|discriminate].
      apply digitOf_of_decimal in E. destruct E as [E1 _]. congruence.
Qed.

(** [ParseUint] in base 10 at the native width: the decimal numerals
    below [2 ^ 64], and nothing else. *)
Lemma ParseUint_inl : forall s x,
  strconv.ParseUint s 10 0 = inl x <->
  Literal.unsigned s = Some x /\ x < 2 ^ 64.
Proof.
  intros s x. unfold strconv.ParseUint, Literal.unsigned.
  destruct s as [|c s]; [split; [discriminate|intros [H _]; discriminate]|].
  change (if 0 =? 0 then strconv.IntSize else 0) with 64.
  rewrite parseDigits_inl by (unfold strconv.maxUint64; lia).
  split.
  - intros [[H [Hx _]]|[H _]]; [split; [exact H|lia]|discriminate].
  - intros [H Hx]. left. repeat split; auto; lia.
Qed.

Lemma parseDigits_inr : forall base maxVal s0 s n e,
  strconv.parseDigits base maxVal s0 n s = inr e ->
  strconv.Func e = "ParseUint" /\ strconv.Num e = s0.
Proof.
  intros base maxVal s0.
  induction s as [|c s IH]; cbn [strconv.parseDigits]; intros n e; [discriminate|].
  destruct (strconv.digitOf c); [|intros H; inversion H; auto].
  destruct (_ >=? base); [intros H; inversion H; auto|].
  destruct (n >=? _); [intros H; inversion H; auto|].
  destruct (_ || _); [intros H; inversion H; auto|apply IH].
Qed.

Lemma ParseUint_inr : forall s e,
  strconv.ParseUint s 10 0 = inr e ->
  strconv.Func e = "ParseUint" /\ strconv.Num e = s.
Proof.
  intros s e. unfold strconv.ParseUint.
  destruct s as [|c s]; [intros H; inversion H; auto|].
  apply parseDigits_inr.
Qed.

(** [ParseInt] in base 10 at the native width: the signed decimal
    numerals of 64 bits, and nothing else. *)
Lemma ParseInt_inl : forall s x,
  strconv.ParseInt s 10 0 = inl x <->
  Literal.signed s = Some x /\ - 2 ^ 63 <= x < 2 ^ 63.
Proof.
  intros s x. unfold strconv.ParseInt, Literal.signed.
  destruct s as [|c s]; [split; [discriminate|intros [H _]; discriminate]|].
  change (if 0 =? 0 then strconv.IntSize else 0) with 64.
  change (2 ^ (64 - 1)) with (2 ^ 63).
  destruct (Ascii.eqb c "+") eqn:Eplus.
  - apply Ascii.eqb_eq in Eplus. subst c. cbn [Ascii.eqb orb negb andb Bool.eqb].
    destruct (strconv.ParseUint s 10 0) as [un|[fn num [|]]] eqn:P.
    + apply ParseUint_inl in P. destruct P as [P Hun].
      assert (Hun0 : 0 <= un) by (unfold Literal.unsigned in P; destruct s;
                           [discriminate|apply digits_ge in P; lia]).
      rewrite P. destruct (un >=? 2 ^ 63) eqn:G.
      * split; [discriminate|]. intros [H Hx]. inversion H. lia.
      * split; [intros H; inversion H; subst; split; [reflexivity|lia]
               |intros [H _]; inversion H; reflexivity].
    + split; [discriminate|]. intros [H Hx].
      assert (Q : strconv.ParseUint s 10 0 = inl x) by (apply ParseUint_inl; split; [exact H|lia]).
      congruence.
    + split; [discriminate|]. intros [H Hx].
      assert (Q : strconv.ParseUint s 10 0 = inl x) by (apply ParseUint_inl; split; [exact H|lia]).
      congruence.
  - destruct (Ascii.eqb c "-") eqn:Eminus.
    + apply Ascii.eqb_eq in Eminus. subst c. cbn [orb negb andb].
      destruct (strconv.ParseUint s 10 0) as [un|[fn num [|]]] eqn:P.
      * apply ParseUint_inl in P. destruct P as [P Hun].
        assert (Hun0 : 0 <= un) by (unfold Literal.unsigned in P; destruct s;
                             [discriminate|apply digits_ge in P; lia]).
        rewrite P. cbn [option_map]. destruct (un >? 2 ^ 63) eqn:G.
        -- split; [discriminate|]. intros [H Hx]. inversion H. lia.
        -- split; [intros H; inversion H; subst; split; [reflexivity|lia]
                  |intros [H _]; inversion H; reflexivity].
      * split; [discriminate|]. intros [H Hx].
        destruct (Literal.unsigned s) as [u|] eqn:U; [|discriminate].
        inversion H.
        assert (Q : strconv.ParseUint s 10 0 = inl u) by (apply ParseUint_inl; split; [exact U|lia]).
        congruence.
      * split; [discriminate|]. intros [H Hx].
        destruct (Literal.unsigned s) as [u|] eqn:U; [|discriminate].
        inversion H.
        assert (Q : strconv.ParseUint s 10 0 = inl u) by (apply ParseUint_inl; split; [exact U|lia]).
        congruence.
    + cbn [orb negb andb].
      assert (L : match c with
                  | "+"%char => Literal.unsigned s
                  | "-"%char => option_map Z.opp (Literal.unsigned s)
                  | _ => Literal.unsigned (String c s)
                  end = Literal.unsigned (String c s)).
      { apply Ascii.eqb_neq in Eplus, Eminus.
        destruct c as [[] [] [] [] [] [] [] []]; try reflexivity; congruence. }
      rewrite L. clear L.
      destruct (strconv.ParseUint (String c s) 10 0) as [un|[fn num [|]]] eqn:P.
      * apply ParseUint_inl in P. destruct P as [P Hun].
        assert (Hun0 : 0 <= un) by (unfold Literal.unsigned in P; apply digits_ge in P; lia).
        rewrite P. destruct (un >=? 2 ^ 63) eqn:G.
        -- split; [discriminate|]. intros [H Hx]. inversion H. lia.
        -- split; [intros H; inversion H; subst; split; [reflexivity|lia]
                  |intros [H _]; inversion H; reflexivity].
      * split; [discriminate|]. intros [H Hx].
        assert (Q : strconv.ParseUint (String c s) 10 0 = inl x)
          by (apply ParseUint_inl; split; [exact H|lia]).
        congruence.
      * split; [discriminate|]. intros [H Hx].
        assert (Q : strconv.ParseUint (String c s) 10 0 = inl x)
          by (apply ParseUint_inl; split; [exact H|lia]).
        congruence.
Qed.

Lemma ParseInt_inr : forall s e,
  strconv.ParseInt s 10 0 = inr e ->
  strconv.Func e = "ParseInt" /\ strconv.Num e = s.
Proof.
  intros s e. unfold strconv.ParseInt.
  destruct s as [|c s]; [intros H; inversion H; auto|].
  destruct (strconv.ParseUint _ 10 0) as [un|[fn num [|]]].
  - destruct (_ && _); [intros H; inversion H; auto|].
    destruct (_ && _); [intros H; inversion H; auto|discriminate].
  - intros H; inversion H; auto.
  - intros H; inversion H; auto.
Qed.

Lemma wrapInt_small : forall bits x,
  0 < bits -> - 2 ^ (bits - 1) <= x < 2 ^ (bits - 1) -> wrapInt bits x = x.
Proof.
  intros bits x Hb Hx. unfold wrapInt.
  assert (E : 2 ^ bits = 2 * 2 ^ (bits - 1)).
  { replace bits with (Z.succ (bits - 1)) at 1 by lia. apply Z.pow_succ_r. lia. }
  rewrite E. rewrite Z.mod_small by lia. lia.
Qed.

Lemma wrapUint_small : forall bits x, 0 <= x < 2 ^ bits -> wrapUint bits x = x.
Proof. intros bits x Hx. unfold wrapUint. apply Z.mod_small. exact Hx. Qed.

Lemma bitsOf_range : forall k, 0 < bitsOf k <= 64.
Proof. intros k. destruct k; unfold bitsOf, strconv.IntSize; lia. Qed.

End ParseFacts.

(** ** Membership, names and probes *)

Lemma mem_In : forall x xs, mem x xs = true <-> In x xs.
Proof.
  intros x xs. unfold mem. rewrite existsb_exists. split.
  - intros [y [Hy E]]. apply String.eqb_eq in E. subst. exact Hy.
  - intros H. exists x. split; [exact H|apply String.eqb_refl].
Qed.

Lemma append_assoc : forall a b c : string, ((a ++ b) ++ c = a ++ (b ++ c))%string.
Proof. induction a as [|x a IH]; intros b c; simpl; [reflexivity|now rewrite IH]. Qed.

Lemma append_inj_l : forall a b c : string, (a ++ b = a ++ c)%string -> b = c.
Proof. induction a as [|x a IH]; simpl; intros b c H; [exact H|inversion H; auto]. Qed.

Lemma Join_snoc : forall xs x sep,
  strings.Join (xs ++ [x]) sep =
  match xs with
  | [] => x
  | _ => (strings.Join xs sep ++ sep ++ x)%string
  end.
Proof.
  induction xs as [|a xs IH]; intros x sep; [reflexivity|].
  destruct xs as [|b xs]; [reflexivity|].
  change (strings.Join ((a :: b :: xs) ++ [x]) sep)
    with (a ++ sep ++ strings.Join ((b :: xs) ++ [x]) sep)%string.
  rewrite IH.
  change (strings.Join (a :: b :: xs) sep)
    with (a ++ sep ++ strings.Join (b :: xs) sep)%string.
  now rewrite !append_assoc.
Qed.

Lemma buildEnvVariable_append : forall parts s,
  buildEnvVariable (append parts s) = (stem parts ++ strings.ToUpper s)%string.
Proof.
  intros parts s. unfold buildEnvVariable, append, stem.
  rewrite map_app. cbn [map]. rewrite Join_snoc.
  destruct parts; [reflexivity|]. cbn [map]. now rewrite append_assoc.
Qed.

Lemma ToUpper_Itoa : forall i, strings.ToUpper (strconv.Itoa i) = strconv.Itoa i.
Proof.
  intros i. unfold strconv.Itoa. generalize (Nat.to_uint i) as d.
  induction d; cbn [NilEmpty.string_of_uint strings.ToUpper strings.mapBytes];
    try reflexivity; unfold strings.ToUpper in IHd; rewrite IHd; reflexivity.
Qed.

Lemma Itoa_inj : forall i j, strconv.Itoa i = strconv.Itoa j -> i = j.
Proof.
  intros i j H. unfold strconv.Itoa in H.
  assert (E : Some (Nat.to_uint i) = Some (Nat.to_uint j)).
  { rewrite <- !NilEmpty.usu. now rewrite H. }
  inversion E as [E'].
  rewrite <- (DecimalNat.Unsigned.of_to i), <- (DecimalNat.Unsigned.of_to j).
  now rewrite E'.
Qed.

Lemma HasPrefix_substring : forall p s,
  strings.HasPrefix s p = true ->
  substring 0 (String.length p) s = p /\ String.length p <= String.length s.
Proof.
  induction p as [|a p IH]; intros s H.
  - destruct s; simpl; split; auto; lia.
  - destruct s as [|b s]; [discriminate|].
    cbn [strings.HasPrefix] in H. apply andb_true_iff in H. destruct H as [E H].
    apply Ascii.eqb_eq in E. subst b. apply IH in H. destruct H as [H1 H2].
    cbn [String.length substring]. rewrite H1. split; [reflexivity|lia].
Qed.

Lemma Contains_substring : forall s p,
  strings.Contains s p = true ->
  exists start, start <= String.length s /\ String.length p <= String.length s
                /\ substring start (String.length p) s = p.
Proof.
  induction s as [|c s IH]; intros p H; cbn [strings.Contains] in H;
    apply orb_true_iff in H; destruct H as [H|H].
  - apply HasPrefix_substring in H. exists 0. intuition.
  - discriminate.
  - apply HasPrefix_substring in H. exists 0. intuition lia.
  - apply IH in H. destruct H as [start [H1 [H2 H3]]].
    exists (S start). cbn [String.length substring]. intuition lia.
Qed.

Lemma Contains_substrings : forall s p,
  strings.Contains s p = true -> In p (substrings s).
Proof.
  intros s p H. apply Contains_substring in H. destruct H as [start [H1 [H2 H3]]].
  unfold substrings. apply in_flat_map. exists start. split.
  - apply in_seq. lia.
  - apply in_map_iff. exists (String.length p). split; [exact H3|apply in_seq; lia].
Qed.

Lemma substrings_length : forall s,
  length (substrings s) = S (String.length s) * S (String.length s).
Proof.
  intros s. unfold substrings.
  assert (G : forall m n from,
             length (flat_map (fun start => map (fun len => substring start len s) (seq 0 m))
                              (seq from n)) = n * m).
  { intros m. induction n as [|n IH]; intros from; cbn [seq flat_map]; [reflexivity|].
    rewrite length_app, IH, length_map, length_seq. lia. }
  apply G.
Qed.

Lemma environNames_spec : forall environ acc name,
  In name (environNames environ acc) <->
  In name acc \/ exists e v, In e environ /\ strings.Split e "=" = [name; v].
Proof.
  induction environ as [|e environ IH]; intros acc name; cbn [environNames].
  - split; [auto|]. intros [H|[e [v [[] _]]]]; exact H.
  - assert (Skip : (In name (environNames environ acc) <->
                    In name acc \/ exists e0 v, In e0 environ /\ strings.Split e0 "=" = [name; v])
                   -> forall pieces, strings.Split e "=" = pieces ->
                      (forall n v, pieces <> [n; v]) ->
                      (In name (environNames environ acc) <->
                       In name acc \/ exists e0 v, In e0 (e :: environ) /\ strings.Split e0 "=" = [name; v])).
    { intros Hrec pieces Hp Hne. rewrite Hrec. split.
      - intros [H|[e0 [v [H1 H2]]]]; [auto|right; exists e0, v; split; [right|]; auto].
      - intros [H|[e0 [v [[H1|H1] H2]]]]; [auto| |right; exists e0, v; auto].
        subst e0. rewrite Hp in H2. exfalso. exact (Hne _ _ H2). }
    destruct (strings.Split e "=") as [|n [|v [|x rest]]] eqn:Sp;
      try (apply (Skip (IH acc name) _ eq_refl); intros; discriminate).
    rewrite IH. split.
    + intros [H|[e0 [v0 [H1 H2]]]].
      * destruct (mem n acc) eqn:M; [auto|].
        apply in_app_or in H. destruct H as [H|[H|[]]]; [auto|].
        subst n. right. exists e, v. split; [left; reflexivity|exact Sp].
      * right. exists e0, v0. split; [right|]; auto.
    + intros [H|[e0 [v0 [[H1|H1] H2]]]].
      * left. destruct (mem n acc); [exact H|apply in_or_app; auto].
      * subst e0. rewrite Sp in H2. inversion H2. subst.
        left. destruct (mem name acc) eqn:M; [apply mem_In; exact M|].
        apply in_or_app. right. left. reflexivity.
      * right. exists e0, v0. auto.
Qed.

Lemma contains_from_name : forall environ variable,
  contains_from environ variable = true ->
  exists name, In name (environNames environ []) /\ strings.Contains name variable = true.
Proof.
  induction environ as [|e environ IH]; intros variable H; [discriminate|].
  cbn [contains_from] in H.
  assert (Rec : contains_from environ variable = true ->
                exists name, In name (environNames (e :: environ) [])
                             /\ strings.Contains name variable = true).
  { intros H'. apply IH in H'. destruct H' as [name [H1 H2]]. exists name.
    split; [|exact H2]. apply environNames_spec in H1. apply environNames_spec.
    destruct H1 as [[]|[e0 [v [H3 H4]]]]. right. exists e0, v. split; [right|]; auto. }
  destruct (strings.Split e "=") as [|n [|v [|x rest]]] eqn:Sp; auto.
  destruct (strings.Contains n variable) eqn:C; auto.
  exists n. split; [|exact C]. apply environNames_spec. right. exists e, v.
  split; [left; reflexivity|exact Sp].
Qed.

(** [os.LookupEnv] finds a variable exactly when an entry carries the name
    before its first [=]. *)
Lemma LookupEnv_found : forall environ key,
  snd (LookupEnv environ key) = true <->
  key <> EmptyString /\ exists e v, In e environ /\ cut e = Some (key, v).
Proof.
  induction environ as [|e environ IH]; intros key; cbn [LookupEnv].
  - split; [discriminate|]. intros [_ [e [v [[] _]]]].
  - destruct (cut e) as [[k v]|] eqn:C.
    + destruct (String.eqb key "") eqn:K; cbn [negb andb].
      * apply String.eqb_eq in K. subst key. rewrite IH. split; intros [H _]; congruence.
      * apply String.eqb_neq in K. destruct (String.eqb k key) eqn:E.
        -- apply String.eqb_eq in E. subst k. cbn [snd]. split; [|reflexivity].
           intros _. split; [exact K|]. exists e, v. split; [left; reflexivity|exact C].
        -- rewrite IH. apply String.eqb_neq in E. split.
           ++ intros [H [e' [v' [H1 H2]]]]. split; [exact H|].
              exists e', v'. split; [right; exact H1|exact H2].
           ++ intros [H [e' [v' [[H1|H1] H2]]]].
              ** subst e'. rewrite C in H2. inversion H2. congruence.
              ** split; [exact H|]. exists e', v'. auto.
    + rewrite IH. split.
      * intros [H [e' [v' [H1 H2]]]]. split; [exact H|].
        exists e', v'. split; [right; exact H1|exact H2].
      * intros [H [e' [v' [[H1|H1] H2]]]].
        -- subst e'. congruence.
        -- split; [exact H|]. exists e', v'. auto.
Qed.

(** The slice loop cannot go on for ever: the probes of [n] successive
    indices need [n] different substrings of the names of the environment. *)
Lemma probes_bounded : forall environ parts n,
  (forall j, j < n -> contains environ (append parts (strconv.Itoa j)) = true) ->
  n < sliceBound environ.
Proof.
  intros environ parts n H. unfold sliceBound.
  set (names := environNames environ []).
  set (vars := map (fun j => (stem parts ++ strconv.Itoa j)%string) (seq 0 n)).
  assert (Hnd : NoDup vars).
  { unfold vars. apply Injective_map_NoDup; [|apply seq_NoDup].
    intros i j E. apply append_inj_l in E. apply Itoa_inj. exact E. }
  assert (Hincl : incl vars (flat_map substrings names)).
  { intros x Hx. unfold vars in Hx. apply in_map_iff in Hx.
    destruct Hx as [j [E Hj]]. apply in_seq in Hj. subst x.
    assert (C := H j ltac:(lia)). unfold contains in C.
    rewrite buildEnvVariable_append, ToUpper_Itoa in C.
    apply contains_from_name in C. destruct C as [name [H1 H2]].
    apply in_flat_map. exists name. split; [exact H1|].
    apply Contains_substrings. exact H2. }
  apply NoDup_incl_length in Hincl; [|exact Hnd].
  unfold vars in Hincl. rewrite length_map, length_seq in Hincl.
  assert (L : forall ns, length (flat_map substrings ns) =
              fold_right (fun name n => S (String.length name) * S (String.length name) + n)
                         0 ns).
  { induction ns as [|a ns IH]; [reflexivity|].
    cbn [flat_map fold_right]. rewrite length_app, substrings_length, IH. reflexivity. }
  rewrite L in Hincl. lia.
Qed.

(** ** Properties shared by every decoder *)

Section DecodeFacts.

Variable environ : Environ.
Variable ParseFloat : string -> Z -> spec_float + strconv.NumError.
Variable float32 : spec_float -> spec_float.
Variable ring : Type.
Variable newRing : type -> list string -> ring.
Variable guessPrefix : list string -> ring -> string * option string.

Local Abbreviation decodeDefault' := (decodeDefault environ ParseFloat float32).
Local Abbreviation decodeMap' := (decodeMap ring newRing guessPrefix).
Local Abbreviation decodeKind' := (decodeKind environ ParseFloat float32 ring newRing guessPrefix).
Local Abbreviation decode' := (decode environ ParseFloat float32 ring newRing guessPrefix).

(** A property of decoders that the default case has and that the four
    constructions keep holds of [decode] at every type. *)
Section Closure.

Variable Q : decoder -> Prop.
Hypothesis Q_default : forall k, Q (decodeDefault' k).
Hypothesis Q_slice : forall d t, Q d -> Q (decodeSlice environ d t).
Hypothesis Q_map : forall d kt vt, Q d -> Q (decodeMap' d kt vt).
Hypothesis Q_struct :
  forall fields, Forall (fun f => Q (snd f)) fields -> Q (decodeStruct environ fields).
Hypothesis Q_ptr :
  forall (switch : type -> decoder) elem,
    Q (switch elem) -> Q (decodeWith switch (PtrTo elem)).

Lemma decode_closure : forall t, Q (decodeKind' t) /\ Q (decode' t).
Proof.
  induction t as [k|elem [IHk IHd]|elem [IHk IHd]|key elem _ [IHk IHd]|fields IH]
    using type_ind.
  - split; apply Q_default.
  - split; [apply Q_default|]. apply Q_ptr. exact IHk.
  - assert (H : Q (decodeKind' (SliceOf elem))) by (apply Q_slice; exact IHd).
    split; exact H.
  - assert (H : Q (decodeKind' (MapOf key elem))) by (apply Q_map; exact IHd).
    split; exact H.
  - assert (H : Q (decodeKind' (StructOf fields))).
    { cbn [decodeKind]. apply Q_struct. rewrite Forall_map.
      apply Forall_impl with (2 := IH). intros [f ft] [_ Hd]. exact Hd. }
    split; exact H.
Qed.

End Closure.

Lemma steps_trans : forall l1 l2 l3, steps l1 l2 -> steps l2 l3 -> steps l1 l3.
Proof.
  intros l1 l2 l3 H12 H23. induction H23 as [|a b c Hab IH Hbc]; [exact H12|].
  eapply steps_step; [apply IH; exact H12|exact Hbc].
Qed.

Lemma steps_one : forall l1 l2, step l1 l2 -> steps l1 l2.
Proof. intros l1 l2 H. eapply steps_step; [apply steps_refl|exact H]. Qed.

Lemma stepwise_default : forall k, stepwise (decodeDefault' k).
Proof.
  intros k v parts l. unfold decodeDefault.
  destruct (lookupEnv environ parts) as [[variable input] ok].
  destruct ok.
  - destruct (decodeNative ParseFloat float32 k v input) as [v' err].
    cbn [stateOf fst snd].
    eapply steps_step; [apply steps_one; apply step_lookup|apply step_delete].
  - apply steps_one. apply step_lookup.
Qed.

Lemma sliceLoop_steps : forall d zero parts,
  stepwise d ->
  forall fuel i elems l,
    steps l (snd (fst (sliceLoop environ d zero parts fuel i elems l))).
Proof.
  intros d zero parts Hd.
  induction fuel as [|fuel IH]; intros i elems l; cbn [sliceLoop probe].
  - destruct (contains environ _); apply steps_one; apply step_environ.
  - destruct (contains environ _); [|apply steps_one; apply step_environ].
    specialize (Hd zero (append parts (strconv.Itoa i)) (record EvEnviron l)).
    destruct (d zero _ _) as [[tmp l1] [e|]]; cbn [stateOf fst snd] in *.
    + eapply steps_trans; [apply steps_one; apply step_environ|exact Hd].
    + eapply steps_trans; [|apply IH].
      eapply steps_trans; [apply steps_one; apply step_environ|exact Hd].
Qed.

Lemma stepwise_slice : forall d t, stepwise d -> stepwise (decodeSlice environ d t).
Proof.
  intros d t Hd v parts l. unfold decodeSlice.
  pose proof (sliceLoop_steps d (Zero t) parts Hd (sliceBound environ) 0 (sliceElems v) l) as H.
  destruct (sliceLoop environ d _ _ _ _ _ _) as [[elems l1] err]. exact H.
Qed.

Lemma decodeField_steps : forall f d,
  stepwise d -> stepwise (decodeField environ f d).
Proof.
  intros f d Hd attr parts l. unfold decodeField.
  destruct (negb _); [apply steps_refl|].
  destruct (lookupTag _ _) as [attrName ok].
  destruct ok; [|apply Hd].
  destruct (String.eqb attrName "-"); [apply steps_refl|].
  destruct (_ || _); [apply Hd|].
  destruct (strings.Contains _ _); [|apply Hd].
  cbn [probe]. destruct (contains environ _); cbn [negb].
  - eapply steps_trans; [apply steps_one; apply step_environ|apply Hd].
  - apply steps_one. apply step_environ.
Qed.

Lemma structLoop_steps : forall fields,
  Forall (fun f => stepwise (snd f)) fields ->
  forall attrs parts l, steps l (snd (fst (structLoop environ fields attrs parts l))).
Proof.
  induction 1 as [|[f d] fields Hd _ IH]; intros attrs parts l; cbn [structLoop].
  - apply steps_refl.
  - destruct attrs as [|attr attrs]; [apply steps_refl|].
    pose proof (decodeField_steps f d Hd attr parts l) as H1.
    destruct (decodeField environ f d attr parts l) as [[attr' l1] [e|]];
      cbn [stateOf fst snd] in *; [exact H1|].
    specialize (IH attrs parts l1).
    destruct (structLoop environ fields attrs parts l1) as [[attrs' l2] err].
    cbn [fst snd] in *. eapply steps_trans; eauto.
Qed.

Lemma stepwise_struct : forall fields,
  Forall (fun f => stepwise (snd f)) fields -> stepwise (decodeStruct environ fields).
Proof.
  intros fields H v parts l. unfold decodeStruct.
  pose proof (structLoop_steps fields H (structFields v) parts l) as H1.
  destruct (structLoop environ fields _ _ _) as [[attrs l1] err]. exact H1.
Qed.

Lemma mapLoop_steps : forall d zero parser parts,
  stepwise d ->
  forall keys valMap l,
    steps l (snd (fst (mapLoop ring guessPrefix d zero parser parts keys valMap l))).
Proof.
  intros d zero parser parts Hd.
  induction keys as [|e keys IH]; intros valMap l; cbn [mapLoop].
  - apply steps_refl.
  - destruct (mem e (env l)) eqn:M; cbn [negb]; [|apply IH].
    assert (S1 : steps l (record (EvRange e) l))
      by (apply steps_one; apply step_range; exact M).
    destruct (String.eqb _ e); [eapply steps_trans; [exact S1|apply IH]|].
    destruct (guessPrefix _ parser) as [prefix [msg|]]; [exact S1|].
    destruct (String.length prefix =? 0)%nat; [eapply steps_trans; [exact S1|apply IH]|].
    specialize (Hd zero (append parts (strings.ToLower prefix)) (record (EvRange e) l)).
    destruct (d zero _ _) as [[value l1] [err|]]; cbn [stateOf fst snd] in *.
    + eapply steps_trans; eauto.
    + eapply steps_trans; [|apply IH]. eapply steps_trans; eauto.
Qed.

Lemma stepwise_map : forall d kt vt, stepwise d -> stepwise (decodeMap' d kt vt).
Proof.
  intros d kt vt Hd v parts l. unfold decodeMap.
  destruct (KindOf kt); try apply steps_refl.
  destruct (KindOf vt); try apply steps_refl;
    match goal with
    | |- context [mapLoop ?r ?g ?d ?z ?p ?ps ?ks ?m ?l] =>
        pose proof (mapLoop_steps d z p ps Hd ks m l) as H1;
        destruct (mapLoop r g d z p ps ks m l) as [[valMap' l1] [err|]]; exact H1
    end.
Qed.

Lemma stepwise_ptr : forall (switch : type -> decoder) elem,
  stepwise (switch elem) -> stepwise (decodeWith switch (PtrTo elem)).
Proof.
  intros switch elem H conf parts l. unfold decodeWith.
  match goal with |- context [switch elem ?v parts l] =>
    specialize (H v parts l); destruct (switch elem v parts l) as [[v' l1] err] end.
  exact H.
Qed.

(** [decode] moves the receiver by steps, at every type. *)
Lemma decode_steps : forall t v parts l, steps l (stateOf (decode' t v parts l)).
Proof.
  intros t. apply (decode_closure stepwise).
  - apply stepwise_default.
  - apply stepwise_slice.
  - apply stepwise_map.
  - apply stepwise_struct.
  - apply stepwise_ptr.
Qed.

Lemma terminating_default : forall k, terminating (decodeDefault' k).
Proof.
  intros k v parts l. unfold decodeDefault.
  destruct (lookupEnv environ parts) as [[variable input] ok].
  destruct ok; [|discriminate].
  destruct (decodeNative ParseFloat float32 k v input) as [v' err] eqn:E.
  cbn [errorOf snd]. intros ->.
  destruct k; cbn in E; try discriminate;
    unfold decodeBool, decodeInt, decodeUInt, decodeFloat in E;
    repeat match type of E with
           | context [match ?x with _ => _ end] => destruct x
           end; discriminate.
Qed.

Lemma sliceLoop_terminating : forall d zero parts,
  terminating d ->
  forall fuel i elems l,
    (forall j, j < i -> contains environ (append parts (strconv.Itoa j)) = true) ->
    fuel + i = sliceBound environ ->
    snd (sliceLoop environ d zero parts fuel i elems l) <> Some OutOfFuel.
Proof.
  intros d zero parts Hd.
  induction fuel as [|fuel IH]; intros i elems l Hall Hfuel; cbn [sliceLoop probe];
    destruct (contains environ (append parts (strconv.Itoa i))) eqn:C;
    try discriminate.
  - exfalso. assert (B : S i < sliceBound environ); [|lia].
    apply (probes_bounded environ parts). intros j Hj.
    destruct (Nat.eq_dec j i); [subst; exact C|apply Hall; lia].
  - specialize (Hd zero (append parts (strconv.Itoa i)) (record EvEnviron l)).
    destruct (d zero _ _) as [[tmp l1] [e|]]; cbn [errorOf snd] in *; [exact Hd|].
    apply IH; [|lia]. intros j Hj.
    destruct (Nat.eq_dec j i); [subst; exact C|apply Hall; lia].
Qed.

Lemma terminating_slice : forall d t, terminating d -> terminating (decodeSlice environ d t).
Proof.
  intros d t Hd v parts l. unfold decodeSlice.
  pose proof (sliceLoop_terminating d (Zero t) parts Hd (sliceBound environ) 0
                (sliceElems v) l ltac:(intros; lia) ltac:(lia)) as H.
  destruct (sliceLoop environ d _ _ _ _ _ _) as [[elems l1] err]. exact H.
Qed.

Lemma decodeField_terminating : forall f d,
  terminating d -> terminating (decodeField environ f d).
Proof.
  intros f d Hd attr parts l. unfold decodeField.
  destruct (negb _); [discriminate|].
  destruct (lookupTag _ _) as [attrName ok].
  destruct ok; [|apply Hd].
  destruct (String.eqb attrName "-"); [discriminate|].
  destruct (_ || _); [apply Hd|].
  destruct (strings.Contains _ _); [|apply Hd].
  cbn [probe]. destruct (contains environ _); cbn [negb]; [apply Hd|discriminate].
Qed.

Lemma terminating_struct : forall fields,
  Forall (fun f => terminating (snd f)) fields -> terminating (decodeStruct environ fields).
Proof.
  intros fields H v parts l. unfold decodeStruct.
  assert (G : forall attrs l0, snd (structLoop environ fields attrs parts l0) <> Some OutOfFuel).
  { clear v l. induction H as [|[f d] fields Hd _ IH]; intros attrs l; cbn [structLoop];
      [discriminate|].
    destruct attrs as [|attr attrs]; [discriminate|].
    pose proof (decodeField_terminating f d Hd attr parts l) as H1.
    destruct (decodeField environ f d attr parts l) as [[attr' l1] [e|]];
      cbn [errorOf snd] in *; [exact H1|].
    specialize (IH attrs l1).
    destruct (structLoop environ fields attrs parts l1) as [[attrs' l2] err]. exact IH. }
  specialize (G (structFields v) l).
  destruct (structLoop environ fields _ _ _) as [[attrs l1] err]. exact G.
Qed.

Lemma mapLoop_terminating : forall d zero parser parts,
  terminating d ->
  forall keys valMap l,
    snd (mapLoop ring guessPrefix d zero parser parts keys valMap l) <> Some OutOfFuel.
Proof.
  intros d zero parser parts Hd.
  induction keys as [|e keys IH]; intros valMap l; cbn [mapLoop]; [discriminate|].
  destruct (mem e (env l)); cbn [negb]; [|apply IH].
  destruct (String.eqb _ e); [apply IH|].
  destruct (guessPrefix _ parser) as [prefix [msg|]]; [discriminate|].
  destruct (String.length prefix =? 0)%nat; [apply IH|].
  specialize (Hd zero (append parts (strings.ToLower prefix)) (record (EvRange e) l)).
  destruct (d zero _ _) as [[value l1] [err|]]; cbn [errorOf snd] in *;
    [exact Hd|apply IH].
Qed.

Lemma terminating_map : forall d kt vt, terminating d -> terminating (decodeMap' d kt vt).
Proof.
  intros d kt vt Hd v parts l. unfold decodeMap.
  destruct (KindOf kt); try discriminate.
  destruct (KindOf vt); try discriminate;
    match goal with
    | |- context [mapLoop ?r ?g ?d ?z ?p ?ps ?ks ?m ?l] =>
        pose proof (mapLoop_terminating d z p ps Hd ks m l) as H1;
        destruct (mapLoop r g d z p ps ks m l) as [[valMap' l1] [err|]];
        [exact H1|discriminate]
    end.
Qed.

Lemma terminating_ptr : forall (switch : type -> decoder) elem,
  terminating (switch elem) -> terminating (decodeWith switch (PtrTo elem)).
Proof.
  intros switch elem H conf parts l. unfold decodeWith.
  match goal with |- context [switch elem ?v parts l] =>
    specialize (H v parts l); destruct (switch elem v parts l) as [[v' l1] err] end.
  exact H.
Qed.

(** The fuel of the slice loop is never used up: [decode] is total. *)
Lemma decode_total : forall t v parts l,
  errorOf (decode' t v parts l) <> Some OutOfFuel.
Proof.
  intros t. apply (decode_closure terminating).
  - apply terminating_default.
  - apply terminating_slice.
  - apply terminating_map.
  - apply terminating_struct.
  - apply terminating_ptr.
Qed.

(** ** The receiver along the steps of a call *)

Lemma step_TagSupports : forall l l', step l l' -> TagSupports l' = TagSupports l.
Proof. intros l l' H. destruct H; reflexivity. Qed.

Lemma steps_TagSupports : forall l l', steps l l' -> TagSupports l' = TagSupports l.
Proof.
  intros l l' H. induction H as [|a b c _ IH Hbc]; [reflexivity|].
  rewrite (step_TagSupports _ _ Hbc). exact IH.
Qed.

Lemma step_env_incl : forall l l', step l l' -> incl (env l') (env l).
Proof.
  intros l l' H. destruct H; cbn [record delete env]; try apply incl_refl.
  intros x Hx. apply filter_In in Hx. tauto.
Qed.

Lemma steps_env_incl : forall l l', steps l l' -> incl (env l') (env l).
Proof.
  intros l l' H. induction H as [|a b c _ IH Hbc]; [apply incl_refl|].
  eapply incl_tran; [apply step_env_incl; exact Hbc|exact IH].
Qed.

Lemma step_invariant : forall l l',
  step l l' ->
  consumedGone l /\ neverRevisited (history l) ->
  consumedGone l' /\ neverRevisited (history l').
Proof.
  intros l l' H [Hc Hn]. destruct H as [l|l name|l name|l e M].
  - split.
    + intros n [E|Hin]; [discriminate|apply Hc; exact Hin].
    + split; [intros n E; discriminate|exact Hn].
  - split.
    + intros n [E|Hin]; [discriminate|apply Hc; exact Hin].
    + split; [intros n E; discriminate|exact Hn].
  - split.
    + intros n Hin Hn'. cbn [delete env history] in *.
      apply filter_In in Hn'. destruct Hn' as [Hn1 Hn2].
      destruct Hin as [E|Hin]; [|exact (Hc n Hin Hn1)].
      inversion E. subst n. rewrite String.eqb_refl in Hn2. discriminate.
    + split; [intros n E; discriminate|exact Hn].
  - split.
    + intros n [E|Hin]; [discriminate|apply Hc; exact Hin].
    + split; [|exact Hn]. intros n E Hin. inversion E. subst n.
      apply (Hc e Hin). apply mem_In. exact M.
Qed.

Lemma steps_invariant : forall l l',
  steps l l' ->
  consumedGone l /\ neverRevisited (history l) ->
  consumedGone l' /\ neverRevisited (history l').
Proof.
  intros l l' H. induction H as [|a b c _ IH Hbc]; [auto|].
  intros Ha. apply (step_invariant _ _ Hbc). apply IH. exact Ha.
Qed.

(** ** The mapping strategy *)

(** C5: a mapping whose key is not of kind string, or whose value is itself
    a mapping, is refused with a configuration error at once: the target is
    returned as it was and so is the receiver, whose history shows that the
    environment has not been read; the outcome is the same in every
    environment. *)
Theorem decodeMap_preconditions_first : forall keyType valueType v parts l,
  KindOf keyType <> reflect.String \/ KindOf valueType = reflect.Map ->
  exists e, isConfigError e /\
            decode' (MapOf keyType valueType) v parts l = (v, l, Some e).
Proof.
  intros keyType valueType v parts l H.
  unfold decode, decodeWith. cbn [decodeKind]. unfold decodeMap.
  destruct (KindOf keyType) eqn:K;
    try (eexists; split; [|reflexivity]; exact I).
  destruct H as [H|H]; [congruence|]. rewrite H.
  eexists; split; [|reflexivity]; exact I.
Qed.

Lemma mapLoop_no_match : forall d zero parser parts keys valMap l,
  (forall e, In e keys ->
             strings.TrimPrefix e (buildEnvVariable parts ++ "_") = e) ->
  exists l', mapLoop ring guessPrefix d zero parser parts keys valMap l
             = (valMap, l', None).
Proof.
  intros d zero parser parts.
  induction keys as [|e keys IH]; intros valMap l H; cbn [mapLoop].
  - exists l. reflexivity.
  - destruct (mem e (env l)); cbn [negb].
    + rewrite (H e (or_introl eq_refl)), String.eqb_refl.
      apply IH. intros e' He'. apply H. right. exact He'.
    + apply IH. intros e' He'. apply H. right. exact He'.
Qed.

(** C10: when the binding of a nil map succeeds the target holds a map that
    is not nil; and it does succeed, leaving an empty map, when the map type
    is acceptable and no name of the receiver starts with the prefix of the
    mapping. *)
Theorem decodeMap_nil_target : forall keyType valueType parts l,
  (forall v' l', decode' (MapOf keyType valueType) (VMap None) parts l = (v', l', None) ->
                 exists m, v' = VMap (Some m))
  /\ (KindOf keyType = reflect.String ->
      KindOf valueType <> reflect.Map ->
      (forall e, In e (env l) ->
                 strings.TrimPrefix e (buildEnvVariable parts ++ "_") = e) ->
      exists l', decode' (MapOf keyType valueType) (VMap None) parts l
                 = (VMap (Some []), l', None)).
Proof.
  intros keyType valueType parts l.
  unfold decode, decodeWith. cbn [decodeKind]. unfold decodeMap. split.
  - intros v' l'.
    destruct (KindOf keyType); try discriminate.
    destruct (KindOf valueType); try discriminate;
      match goal with
      | |- context [mapLoop ?r ?g ?d ?z ?p ?ps ?ks ?m ?l] =>
          destruct (mapLoop r g d z p ps ks m l) as [[valMap' l1] [err|]];
          [discriminate|intros E; inversion E; eexists; reflexivity]
      end.
  - intros K V H. rewrite K.
    destruct (KindOf valueType) eqn:V'; try congruence;
      match goal with
      | |- context [mapLoop ?r ?g ?d ?z ?p ?ps ?ks ?m ?l] =>
          destruct (mapLoop_no_match d z p ps ks m l H) as [l' E];
          rewrite E; exists l'; reflexivity
      end.
Qed.

(** ** The consumption of names *)

(** C7 (amended): a scalar bind that finds its variable deletes the name
    from the receiver; along a whole call of [Unmarshal] a deleted name is
    absent from the receiver at the end, [range l.env] never produces a name
    after its deletion, and the receiver only loses names. *)
Theorem consumed_names_stay_removed : forall t object parts,
  let l := stateOf (Unmarshal environ ParseFloat float32 ring newRing guessPrefix
                              t object parts) in
  consumedGone l /\ neverRevisited (history l) /\ incl (env l) (env (New environ))
  /\ (forall k v path l0 input,
        LookupEnv environ (buildEnvVariable path) = (input, true) ->
        In (EvDelete (buildEnvVariable path))
           (history (stateOf (decode' (Basic k) v path l0)))).
Proof.
  intros t object parts l.
  pose proof (decode_steps t object parts (New environ)) as S.
  fold l in S.
  assert (I0 : consumedGone (New environ) /\ neverRevisited (history (New environ)))
    by (split; [intros n []|exact I]).
  destruct (steps_invariant _ _ S I0) as [Hc Hn].
  repeat split; auto.
  - apply steps_env_incl. exact S.
  - intros k v path l0 input E.
    unfold decode, decodeWith. cbn [decodeKind KindOf]. unfold decodeDefault, lookupEnv.
    rewrite E. destruct (decodeNative ParseFloat float32 k v input) as [v' err].
    cbn [stateOf fst snd delete history]. left. reflexivity.
Qed.

(** ** The scalar case *)

Lemma ParseBool_boolean : forall s b,
  Literal.boolean s = Some b -> strconv.ParseBool s = inl b.
Proof.
  intros s b. unfold Literal.boolean, strconv.ParseBool.
  change (existsb (String.eqb s)) with (mem s).
  destruct (mem s ["true"; "TRUE"; "True"; "t"; "T"; "1"]) eqn:T.
  - intros E. inversion E. subst b.
    replace (mem s ["1"; "t"; "T"; "true"; "TRUE"; "True"]) with true; [reflexivity|].
    symmetry. apply mem_In. apply mem_In in T. simpl in *. tauto.
  - replace (mem s ["1"; "t"; "T"; "true"; "TRUE"; "True"]) with false.
    + destruct (mem s ["false"; "FALSE"; "False"; "f"; "F"; "0"]) eqn:F; [|discriminate].
      intros E. inversion E. subst b.
      replace (mem s ["0"; "f"; "F"; "false"; "FALSE"; "False"]) with true; [reflexivity|].
      symmetry. apply mem_In. apply mem_In in F. simpl in *. tauto.
    + symmetry. apply not_true_is_false. intros M. apply mem_In in M.
      assert (M' : mem s ["true"; "TRUE"; "True"; "t"; "T"; "1"] = true)
        by (apply mem_In; simpl in *; tauto).
      congruence.
Qed.

Lemma pow2_le_63 : forall bits, (0 < bits <= 64 -> 2 ^ (bits - 1) <= 2 ^ 63)%Z.
Proof. intros bits H. apply Z.pow_le_mono_r; lia. Qed.

Lemma decodeInt_literal : forall k v input n,
  Literal.signed (strings.TrimSpace input) = Some n ->
  (- 2 ^ (bitsOf k - 1) <=? n)%Z && (n <? 2 ^ (bitsOf k - 1))%Z = true ->
  decodeInt k v input = (VInt n, None).
Proof.
  intros k v input n L R. apply andb_true_iff in R. destruct R as [R1 R2].
  apply Z.leb_le in R1. apply Z.ltb_lt in R2.
  pose proof (bitsOf_range k) as B. pose proof (pow2_le_63 _ B) as P.
  unfold decodeInt.
  replace (strconv.ParseInt (strings.TrimSpace input) 10 0) with (@inl Z strconv.NumError n)
    by (symmetry; apply ParseInt_inl; split; [exact L|lia]).
  unfold SetInt. rewrite wrapInt_small by lia. reflexivity.
Qed.

Lemma decodeUInt_literal : forall k v input n,
  Literal.unsigned (strings.TrimSpace input) = Some n ->
  (n <? 2 ^ bitsOf k)%Z = true ->
  decodeUInt k v input = (VUint n, None).
Proof.
  intros k v input n L R. apply Z.ltb_lt in R.
  pose proof (bitsOf_range k) as B.
  assert (P : (2 ^ bitsOf k <= 2 ^ 64)%Z) by (apply Z.pow_le_mono_r; lia).
  assert (N : (0 <= n)%Z).
  { unfold Literal.unsigned in L. destruct (strings.TrimSpace input); [discriminate|].
    apply digits_ge in L; lia. }
  unfold decodeUInt.
  replace (strconv.ParseUint (strings.TrimSpace input) 10 0) with (@inl Z strconv.NumError n)
    by (symmetry; apply ParseUint_inl; split; [exact L|lia]).
  unfold SetUint. rewrite wrapUint_small by lia. reflexivity.
Qed.

Lemma decodeNative_literal : forall k v input x,
  literalValue ParseFloat float32 k input = Some x ->
  decodeNative ParseFloat float32 k v input = (x, None).
Proof.
  intros k v input x.
  destruct k; unfold literalValue, Literal.value, decodeNative;
    cbn [Literal.isSigned Literal.isUnsigned]; try discriminate.
  - (* Bool *)
    destruct (Literal.boolean _) as [b|] eqn:B; [|discriminate].
    intros E. inversion E. unfold decodeBool. now rewrite (ParseBool_boolean _ _ B).
  - destruct (Literal.signed _) as [n|] eqn:L; [|discriminate].
    destruct (_ && _) eqn:R; [|discriminate].
    intros E. inversion E. subst x. now apply decodeInt_literal.
  - destruct (Literal.signed _) as [n|] eqn:L; [|discriminate].
    destruct (_ && _) eqn:R; [|discriminate].
    intros E. inversion E. subst x. now apply decodeInt_literal.
  - destruct (Literal.signed _) as [n|] eqn:L; [|discriminate].
    destruct (_ && _) eqn:R; [|discriminate].
    intros E. inversion E. subst x. now apply decodeInt_literal.
  - destruct (Literal.signed _) as [n|] eqn:L; [|discriminate].
    destruct (_ && _) eqn:R; [|discriminate].
    intros E. inversion E. subst x. now apply decodeInt_literal.
  - destruct (Literal.signed _) as [n|] eqn:L; [|discriminate].
    destruct (_ && _) eqn:R; [|discriminate].
    intros E. inversion E. subst x. now apply decodeInt_literal.
  - destruct (Literal.unsigned _) as [n|] eqn:L; [|discriminate].
    destruct (_ <? _)%Z eqn:R; [|discriminate].
    intros E. inversion E. subst x. now apply decodeUInt_literal.
  - destruct (Literal.unsigned _) as [n|] eqn:L; [|discriminate].
    destruct (_ <? _)%Z eqn:R; [|discriminate].
    intros E. inversion E. subst x. now apply decodeUInt_literal.
  - destruct (Literal.unsigned _) as [n|] eqn:L; [|discriminate].
    destruct (_ <? _)%Z eqn:R; [|discriminate].
    intros E. inversion E. subst x. now apply decodeUInt_literal.
  - destruct (Literal.unsigned _) as [n|] eqn:L; [|discriminate].
    destruct (_ <? _)%Z eqn:R; [|discriminate].
    intros E. inversion E. subst x. now apply decodeUInt_literal.
  - destruct (Literal.unsigned _) as [n|] eqn:L; [|discriminate].
    destruct (_ <? _)%Z eqn:R; [|discriminate].
    intros E. inversion E. subst x. now apply decodeUInt_literal.
  - unfold decodeFloat. destruct (ParseFloat _ 10); [|discriminate].
    intros E. inversion E. reflexivity.
  - unfold decodeFloat. destruct (ParseFloat _ 10); [|discriminate].
    intros E. inversion E. reflexivity.
  - intros E. inversion E. reflexivity.
Qed.

Lemma decodeNative_error : forall k v input v' e,
  decodeNative ParseFloat float32 k v input = (v', Some e) ->
  v' = v /\ isParseError e.
Proof.
  intros k v input v' e.
  destruct k; cbn [decodeNative]; try discriminate;
    unfold decodeBool, decodeInt, decodeUInt, decodeFloat;
    first [ destruct (strconv.ParseBool _)
          | destruct (strconv.ParseInt _ _ _)
          | destruct (strconv.ParseUint _ _ _)
          | destruct (ParseFloat _ _) ];
    try discriminate; intros E; inversion E; (split; [reflexivity|exact I]).
Qed.

(** C4 (amended): the scalar case of [decode].  When no variable has the
    name built from the path the field and the names of the receiver are
    left as they were, without error.  When the variable exists and its text
    is a literal that the codec accepts for the kind of the field
    ([literalValue]: any text, untrimmed, for a string; one of the twelve
    spellings of a boolean; a decimal integer that fits the width of the
    field; a text that [strconv.ParseFloat] reads), the field takes the
    value of the literal.  When the codec fails, its parse error is the
    error of [decode], and the field is left as it was. *)
Theorem decode_scalar_base_case : forall k v parts l input ok,
  LookupEnv environ (buildEnvVariable parts) = (input, ok) ->
  let o := decode' (Basic k) v parts l in
  (ok = false -> valueOf o = v /\ errorOf o = None /\ env (stateOf o) = env l)
  /\ (ok = true ->
      forall x, literalValue ParseFloat float32 k input = Some x ->
                valueOf o = x /\ errorOf o = None)
  /\ (ok = true ->
      forall e, snd (decodeNative ParseFloat float32 k v input) = Some e ->
                valueOf o = v /\ errorOf o = Some e /\ isParseError e).
Proof.
  intros k v parts l input ok E o. subst o.
  unfold decode, decodeWith. cbn [decodeKind KindOf]. unfold decodeDefault, lookupEnv.
  rewrite E. split; [|split].
  - intros ->. repeat split.
  - intros -> x L. rewrite (decodeNative_literal k v input x L). split; reflexivity.
  - intros -> e D.
    destruct (decodeNative ParseFloat float32 k v input) as [v' err] eqn:N.
    cbn [snd] in D. subst err. apply decodeNative_error in N. destruct N as [-> P].
    repeat split. exact P.
Qed.

(** ** The sequence strategy *)

Lemma sliceLoop_run : forall d zero parts n,
  (forall j, j < n -> contains environ (append parts (strconv.Itoa j)) = true) ->
  contains environ (append parts (strconv.Itoa n)) = false ->
  forall fuel i elems l,
    i <= n -> n < fuel + i ->
    exists elems' l',
      (sliceLoop environ d zero parts fuel i elems l = (elems ++ elems', l', None)
       /\ length elems' = n - i
       /\ forall j, j < n - i ->
                    exists lj lj', d zero (append parts (strconv.Itoa (i + j))) lj
                                   = (nth j elems' zero, lj', None))
      \/ (exists e j lj lj' x,
             sliceLoop environ d zero parts fuel i elems l = (elems ++ elems', l', Some e)
             /\ length elems' = j /\ i + j < n
             /\ d zero (append parts (strconv.Itoa (i + j))) lj = (x, lj', Some e)).
Proof.
  intros d zero parts n Hall Hstop.
  induction fuel as [|fuel IH]; intros i elems l Hi Hfuel; [lia|].
  cbn [sliceLoop probe].
  destruct (Nat.eq_dec i n) as [->|Hne].
  - rewrite Hstop. exists [], (record EvEnviron l). left.
    rewrite app_nil_r, Nat.sub_diag. repeat split; auto. intros j Hj. lia.
  - rewrite (Hall i) by lia.
    destruct (d zero (append parts (strconv.Itoa i)) (record EvEnviron l))
      as [[tmp l1] [e|]] eqn:D.
    + exists [], l1. right. exists e, 0, (record EvEnviron l), l1, tmp.
      rewrite app_nil_r, Nat.add_0_r. repeat split; auto. lia.
    + destruct (IH (S i) (elems ++ [tmp]) l1 ltac:(lia) ltac:(lia))
        as [elems' [l' [[E [Hlen Hnth]]|[e [j [lj [lj' [x [E [Hlen [Hj Hd]]]]]]]]]]].
      * exists (tmp :: elems'), l'. left. rewrite E, <- app_assoc. cbn [app length].
        repeat split; [lia|]. intros [|j] Hj.
        -- exists (record EvEnviron l), l1. rewrite Nat.add_0_r. exact D.
        -- destruct (Hnth j ltac:(lia)) as [lj [lj' Hd]]. exists lj, lj'.
           replace (i + S j) with (S i + j) by lia. exact Hd.
      * exists (tmp :: elems'), l'. right. exists e, (S j), lj, lj', x.
        rewrite E, <- app_assoc. cbn [app length].
        replace (i + S j) with (S i + j) by lia. repeat split; auto; lia.
Qed.

(** C6: the sequence strategy probes the indices 0, 1, 2, ... in order and
    stops at the first index [n] without a variable that contains the name of
    path + index.  On success the sequence has gained exactly [n] elements,
    the one at position [j] decoded at path + [j]; an error can only be that
    of one of these elements.  With [A_0=1], [A_1=2], [A_2=3] and the prefix
    [A] the sequence is 1, 2, 3; without [A_1] it is 1, with no error. *)
Theorem decodeSlice_stops_at_first_gap : forall sliceType v parts l n,
  (forall j, j < n -> contains environ (append parts (strconv.Itoa j)) = true) ->
  contains environ (append parts (strconv.Itoa n)) = false ->
  (exists elems l',
     (decode' (SliceOf sliceType) v parts l = (VSlice (sliceElems v ++ elems), l', None)
      /\ length elems = n
      /\ forall j, j < n ->
            exists lj lj',
              decode' sliceType (Zero sliceType) (append parts (strconv.Itoa j)) lj
              = (nth j elems (Zero sliceType), lj', None))
     \/ (exists e j lj lj' x,
           decode' (SliceOf sliceType) v parts l
           = (VSlice (sliceElems v ++ elems), l', Some e)
           /\ length elems = j /\ j < n
           /\ decode' sliceType (Zero sliceType) (append parts (strconv.Itoa j)) lj
              = (x, lj', Some e)))
  /\ (let A := ["A_0=1"; "A_1=2"; "A_2=3"] in
      let o := decode A ParseFloat float32 ring newRing guessPrefix
                      (SliceOf (Basic reflect.Int)) (VSlice []) ["A"] l in
      valueOf o = VSlice [VInt 1; VInt 2; VInt 3] /\ errorOf o = None)
  /\ (let A := ["A_0=1"; "A_2=3"] in
      let o := decode A ParseFloat float32 ring newRing guessPrefix
                      (SliceOf (Basic reflect.Int)) (VSlice []) ["A"] l in
      valueOf o = VSlice [VInt 1] /\ errorOf o = None).
Proof.
  intros sliceType v parts l n Hall Hstop. split; [|split; vm_compute; split; reflexivity].
  pose proof (probes_bounded environ parts n Hall) as B.
  destruct (sliceLoop_run (decode' sliceType) (Zero sliceType) parts n Hall Hstop
              (sliceBound environ) 0 (sliceElems v) l ltac:(lia) ltac:(lia))
    as [elems [l' [[E [Hlen Hnth]]|[e [j [lj [lj' [x [E [Hlen [Hj Hd]]]]]]]]]]];
    exists elems, l'; [left|right].
  - unfold decode at 1. unfold decodeWith. cbn [decodeKind]. unfold decodeSlice.
    fold decode'. rewrite E. rewrite Nat.sub_0_r in *. repeat split; auto.
  - exists e, j, lj, lj', x.
    unfold decode at 1. unfold decodeWith. cbn [decodeKind]. unfold decodeSlice.
    fold decode'. rewrite E. repeat split; auto.
Qed.

(** ** Running the decoder twice *)

Lemma decodeNative_again : forall k v input v1 e1,
  decodeNative ParseFloat float32 k v input = (v1, e1) ->
  decodeNative ParseFloat float32 k v1 input = (v1, e1).
Proof.
  intros k v input v1 e1.
  destruct k; cbn [decodeNative]; unfold decodeString;
    try (intros E; inversion E; reflexivity);
    unfold decodeBool, decodeInt, decodeUInt, decodeFloat;
    first [ destruct (strconv.ParseBool _)
          | destruct (strconv.ParseInt _ _ _)
          | destruct (strconv.ParseUint _ _ _)
          | destruct (ParseFloat _ _) ];
    intros E; inversion E; reflexivity.
Qed.

Lemma idempotent_default : forall k, idempotent (decodeDefault' k).
Proof.
  intros k v parts l l' _. unfold decodeDefault.
  destruct (lookupEnv environ parts) as [[variable input] ok].
  destruct ok; [|split; reflexivity].
  destruct (decodeNative ParseFloat float32 k v input) as [v1 e1] eqn:D.
  cbn [valueOf errorOf fst snd].
  rewrite (decodeNative_again _ _ _ _ _ D). split; reflexivity.
Qed.

Lemma idempotent_ptr : forall (switch : type -> decoder) elem,
  idempotent (switch elem) -> idempotent (decodeWith switch (PtrTo elem)).
Proof.
  intros switch elem H conf parts l l' T. unfold decodeWith.
  match goal with |- context [switch elem ?v parts l] =>
    specialize (H v parts l l' T);
    destruct (switch elem v parts l) as [[v1 l1] e1] end.
  cbn [valueOf errorOf fst snd] in *.
  destruct (switch elem v1 parts l') as [[v2 l2] e2].
  cbn [valueOf errorOf fst snd] in *. destruct H as [-> ->]. split; reflexivity.
Qed.

Lemma idempotent_field : forall f d,
  idempotent d -> idempotent (decodeField environ f d).
Proof.
  intros f d H attr parts l l' T. unfold decodeField.
  destruct (negb _); [split; reflexivity|]. rewrite T.
  destruct (lookupTag _ _) as [attrName ok].
  destruct ok; [|apply H; exact T].
  destruct (String.eqb attrName "-"); [split; reflexivity|].
  destruct (_ || _); [apply H; exact T|].
  destruct (strings.Contains _ _); [|apply H; exact T].
  cbn [probe]. destruct (contains environ _); cbn [negb]; [|split; reflexivity].
  apply H. exact T.
Qed.

Lemma structLoop_again : forall fields,
  Forall (fun f => idempotent (snd f) /\ stepwise (snd f)) fields ->
  forall attrs parts l l',
    TagSupports l' = TagSupports l ->
    fst (fst (structLoop environ fields
                (fst (fst (structLoop environ fields attrs parts l))) parts l'))
    = fst (fst (structLoop environ fields attrs parts l))
    /\ snd (structLoop environ fields
              (fst (fst (structLoop environ fields attrs parts l))) parts l')
       = snd (structLoop environ fields attrs parts l).
Proof.
  induction 1 as [|[f d] fields [Hi Hs] _ IH]; intros attrs parts l l' T.
  - cbn [structLoop fst snd]. split; reflexivity.
  - cbn [snd] in Hi, Hs. destruct attrs as [|attr attrs];
      [cbn [structLoop fst snd]; split; reflexivity|].
    cbn [structLoop].
    pose proof (idempotent_field f d Hi attr parts l l' T) as F.
    pose proof (decodeField_steps f d Hs attr parts l) as S1.
    destruct (decodeField environ f d attr parts l) as [[attr1 l1] e1].
    cbn [valueOf errorOf stateOf fst snd] in *.
    destruct e1 as [e1|].
    + cbn [fst snd structLoop].
      destruct (decodeField environ f d attr1 parts l') as [[attr2 l2] e2].
      cbn [valueOf errorOf fst snd] in F. destruct F as [-> ->]. split; reflexivity.
    + pose proof (decodeField_steps f d Hs attr1 parts l') as S2.
      destruct (structLoop environ fields attrs parts l1) as [[attrs1 l1'] e1'] eqn:L1.
      cbn [fst snd structLoop].
      destruct (decodeField environ f d attr1 parts l') as [[attr2 l2] e2].
      cbn [valueOf errorOf stateOf fst snd] in *. destruct F as [-> ->].
      assert (T' : TagSupports l2 = TagSupports l1).
      { rewrite (steps_TagSupports _ _ S1), (steps_TagSupports _ _ S2). exact T. }
      specialize (IH attrs parts l1 l2 T'). rewrite L1 in IH. cbn [fst snd] in IH.
      destruct (structLoop environ fields attrs1 parts l2) as [[attrs2 l2'] e2'].
      cbn [fst snd] in *. destruct IH as [-> ->]. split; reflexivity.
Qed.

Lemma idempotent_struct : forall fields,
  Forall (fun f => idempotent (snd f) /\ stepwise (snd f)) fields ->
  idempotent (decodeStruct environ fields).
Proof.
  intros fields H v parts l l' T. unfold decodeStruct.
  pose proof (structLoop_again fields H (structFields v) parts l l' T) as G.
  destruct (structLoop environ fields (structFields v) parts l) as [[attrs1 l1] e1].
  cbn [valueOf errorOf structFields fst snd] in *.
  destruct (structLoop environ fields attrs1 parts l') as [[attrs2 l2] e2].
  cbn [fst snd] in *. destruct G as [-> ->]. split; reflexivity.
Qed.

Lemma decode_plain_idempotent : forall t,
  plain t = true -> idempotent (decodeKind' t) /\ idempotent (decode' t).
Proof.
  induction t as [k|elem IH|elem _|key elem _ _|fields IH] using type_ind;
    cbn [plain]; intros Hp; try discriminate.
  - split; apply idempotent_default.
  - split; [apply idempotent_default|].
    apply idempotent_ptr. apply IH. exact Hp.
  - assert (G : idempotent (decodeKind' (StructOf fields))).
    { cbn [decodeKind]. apply idempotent_struct. rewrite Forall_map.
      rewrite forallb_forall in Hp. rewrite Forall_forall in IH |- *.
      intros [f ft] Hin. cbn [snd]. split.
      - apply (IH _ Hin). apply (Hp _ Hin).
      - intros v parts l. apply decode_steps. }
    split; exact G.
Qed.

(** C3 (amended): for a target made of scalars, pointers and records only,
    running [Unmarshal] again on the target it has populated, in the same
    environment, changes nothing: same target, same error. *)
Theorem Unmarshal_idempotent_without_sequences : forall t object parts,
  plain t = true ->
  let once := Unmarshal environ ParseFloat float32 ring newRing guessPrefix
                        t object parts in
  let twice := Unmarshal environ ParseFloat float32 ring newRing guessPrefix
                         t (valueOf once) parts in
  valueOf twice = valueOf once /\ errorOf twice = errorOf once.
Proof.
  intros t object parts Hp once twice.
  destruct (decode_plain_idempotent t Hp) as [_ H].
  exact (H object parts (New environ) (New environ) eq_refl).
Qed.

End DecodeFacts.

(** ** The scalar codec *)

(** C8 (amended): [decodeBool] accepts, around the surrounding white space,
    exactly the twelve words of [strconv.ParseBool] (1, t, T, true, TRUE,
    True for true and 0, f, F, false, FALSE, False for false) and returns a
    syntax error of [ParseBool] for every other text, leaving the target as
    it was. *)
Theorem decodeBool_accepts_twelve_words : forall v input,
  (In (strings.TrimSpace input) ["1"; "t"; "T"; "true"; "TRUE"; "True"]
   /\ decodeBool v input = (VBool true, None))
  \/ (In (strings.TrimSpace input) ["0"; "f"; "F"; "false"; "FALSE"; "False"]
      /\ decodeBool v input = (VBool false, None))
  \/ (~ In (strings.TrimSpace input)
          ["1"; "t"; "T"; "true"; "TRUE"; "True"; "0"; "f"; "F"; "false"; "FALSE"; "False"]
      /\ decodeBool v input
         = (v, Some (NumError (strconv.syntaxError "ParseBool" (strings.TrimSpace input))))).
Proof.
  intros v input. unfold decodeBool, strconv.ParseBool.
  set (s := strings.TrimSpace input).
  change (existsb (String.eqb s)) with (mem s).
  destruct (mem s ["1"; "t"; "T"; "true"; "TRUE"; "True"]) eqn:T.
  - left. split; [apply mem_In; exact T|reflexivity].
  - destruct (mem s ["0"; "f"; "F"; "false"; "FALSE"; "False"]) eqn:F.
    + right. left. split; [apply mem_In; exact F|reflexivity].
    + right. right. split; [|reflexivity]. intros H.
      assert (H' : In s ["1"; "t"; "T"; "true"; "TRUE"; "True"]
                   \/ In s ["0"; "f"; "F"; "false"; "FALSE"; "False"])
        by (simpl in *; tauto).
      destruct H' as [H'|H']; apply mem_In in H'; congruence.
Qed.

(** C8, counterexample: the mixed casing tRuE is refused. *)
Lemma decodeBool_refuses_mixed_case :
  decodeBool (VBool false) "tRuE"
  = (VBool false, Some (NumError (strconv.syntaxError "ParseBool" "tRuE"))).
Proof. reflexivity. Qed.

(** C9 (amended): [decodeInt] and [decodeUInt] either set the target or
    return a parse error, and nothing else.  They set it exactly when the
    text, around the surrounding white space, is a decimal numeral of the
    native 64 bits (signed, with an optional sign, or unsigned); the value
    stored is that number wrapped to the width of the target, without any
    check against that width. *)
Theorem decodeInt_wraps_to_width : forall k v input,
  ((exists n, Literal.signed (strings.TrimSpace input) = Some n
              /\ (- 2 ^ 63 <= n < 2 ^ 63)%Z
              /\ decodeInt k v input = (VInt (wrapInt (bitsOf k) n), None))
   \/ (~ (exists n, Literal.signed (strings.TrimSpace input) = Some n
                    /\ (- 2 ^ 63 <= n < 2 ^ 63)%Z)
       /\ exists e, decodeInt k v input = (v, Some (NumError e))
                    /\ strconv.Func e = "ParseInt"
                    /\ strconv.Num e = strings.TrimSpace input))
  /\ ((exists n, Literal.unsigned (strings.TrimSpace input) = Some n
                 /\ (0 <= n < 2 ^ 64)%Z
                 /\ decodeUInt k v input = (VUint (wrapUint (bitsOf k) n), None))
      \/ (~ (exists n, Literal.unsigned (strings.TrimSpace input) = Some n
                       /\ (n < 2 ^ 64)%Z)
          /\ exists e, decodeUInt k v input = (v, Some (NumError e))
                       /\ strconv.Func e = "ParseUint"
                       /\ strconv.Num e = strings.TrimSpace input)).
Proof.
  intros k v input. set (s := strings.TrimSpace input). split.
  - unfold decodeInt. fold s.
    destruct (strconv.ParseInt s 10 0) as [n|e] eqn:P.
    + left. exists n. apply ParseInt_inl in P. destruct P as [P R].
      repeat split; auto; lia.
    + right. split.
      * intros [n [L R]].
        assert (Q : strconv.ParseInt s 10 0 = inl n) by (apply ParseInt_inl; auto).
        congruence.
      * exists e. apply ParseInt_inr in P. tauto.
  - unfold decodeUInt. fold s.
    destruct (strconv.ParseUint s 10 0) as [n|e] eqn:P.
    + left. exists n. apply ParseUint_inl in P. destruct P as [P R].
      assert (N : (0 <= n)%Z).
      { unfold Literal.unsigned in P. destruct s; [discriminate|].
        apply digits_ge in P; lia. }
      repeat split; auto; lia.
    + right. split.
      * intros [n [L R]].
        assert (Q : strconv.ParseUint s 10 0 = inl n) by (apply ParseUint_inl; auto).
        congruence.
      * exists e. apply ParseUint_inr in P. tauto.
Qed.

(** C9, counterexample: 300 into an 8-bit target is stored as 44, without
    error. *)
Lemma decodeInt_300_into_int8 :
  decodeInt reflect.Int8 (VInt 0) "300" = (VInt 44, None).
Proof. reflexivity. Qed.

(** ** Tags *)

(** C1, on the code: with the tag list of [New] (and [defaultTagSupported])
    a field tagged json a and yaml b resolves to b: yaml is looked up before
    json. *)
Theorem lookupTag_default_prefers_yaml : forall environ,
  lookupTag [("json", "a"); ("yaml", "b")] (TagSupports (New environ)) = ("b", true)
  /\ lookupTag [("json", "a"); ("yaml", "b")] defaultTagSupported = ("b", true).
Proof. intros environ. split; reflexivity. Qed.

(** C2, on the code: in the example of the documentation of [Unmarshal] the
    field tagged [a,omitempty] is probed, and would be decoded, under the
    name MY_PREFIX_A,OMITEMPTY, built from the whole tag; with MY_PREFIX_A=1
    in the environment it is left at 0, whereas the tag [a] binds it to 1. *)
Theorem omitempty_tag_is_not_parsed :
  forall ParseFloat float32 (ring : Type) newRing guessPrefix,
    buildEnvVariable (append ["MY_PREFIX"] "a,omitempty") = "MY_PREFIX_A,OMITEMPTY"
    /\ contains Sample.docEnviron (append ["MY_PREFIX"] "a,omitempty") = false
    /\ contains Sample.docEnviron (append ["MY_PREFIX"] "a") = true
    /\ (let o := Unmarshal Sample.docEnviron ParseFloat float32 ring newRing guessPrefix
                           (PtrTo Sample.docT) (reflectNew Sample.docT) ["MY_PREFIX"] in
        valueOf o = VPtr (Some (VStruct [VInt 0; VInt 2])) /\ errorOf o = None)
    /\ (let o := Unmarshal Sample.docEnviron ParseFloat float32 ring newRing guessPrefix
                           (PtrTo Sample.docT') (reflectNew Sample.docT') ["MY_PREFIX"] in
        valueOf o = VPtr (Some (VStruct [VInt 1; VInt 2])) /\ errorOf o = None).
Proof. intros. repeat split; vm_compute; reflexivity. Qed.

(** ** Examples *)

(** C3, counterexample: a second run on a populated sequence appends its
    three elements again. *)
Lemma Unmarshal_twice_appends_again :
  Sample.Unmarshal Sample.seqEnviron (PtrTo (SliceOf Sample.int))
                   (reflectNew (SliceOf Sample.int)) ["A"]
  = (VPtr (Some (VSlice [VInt 1; VInt 2; VInt 3])), None)
  /\ Sample.Unmarshal Sample.seqEnviron (PtrTo (SliceOf Sample.int))
                      (VPtr (Some (VSlice [VInt 1; VInt 2; VInt 3]))) ["A"]
     = (VPtr (Some (VSlice [VInt 1; VInt 2; VInt 3; VInt 1; VInt 2; VInt 3])), None)
  /\ fst (Sample.Unmarshal Sample.seqEnviron (PtrTo (SliceOf Sample.int))
            (fst (Sample.Unmarshal Sample.seqEnviron (PtrTo (SliceOf Sample.int))
                    (reflectNew (SliceOf Sample.int)) ["A"])) ["A"])
     <> fst (Sample.Unmarshal Sample.seqEnviron (PtrTo (SliceOf Sample.int))
               (reflectNew (SliceOf Sample.int)) ["A"]).
Proof.
  split; [vm_compute; reflexivity|].
  split; [vm_compute; reflexivity|].
  vm_compute. discriminate.
Qed.

(** C7, counterexample: two fields whose tags give the same name are both
    bound from the one variable P_X, which is looked up, and found, again
    after its deletion. *)
Lemma one_variable_bound_twice :
  Sample.Unmarshal ["P_X=7"] (PtrTo Sample.twinT) (reflectNew Sample.twinT) ["P"]
  = (VPtr (Some (VStruct [VInt 7; VInt 7])), None)
  /\ history (stateOf (Unmarshal ["P_X=7"] Sample.ParseFloat Sample.float32 Sample.ring
                                 Sample.newRing Sample.guessPrefix
                                 (PtrTo Sample.twinT) (reflectNew Sample.twinT) ["P"]))
     = [EvDelete "P_X"; EvLookupEnv "P_X"; EvDelete "P_X"; EvLookupEnv "P_X"].
Proof. split; vm_compute; reflexivity. Qed.

(** The amended C3 on the record of the documentation, tagged [a]. *)
Lemma Unmarshal_idempotent_witness :
  plain (PtrTo Sample.docT') = true
  /\ valueOf (Unmarshal Sample.docEnviron Sample.ParseFloat Sample.float32 Sample.ring
                        Sample.newRing Sample.guessPrefix (PtrTo Sample.docT')
                        (valueOf (Unmarshal Sample.docEnviron Sample.ParseFloat
                                            Sample.float32 Sample.ring Sample.newRing
                                            Sample.guessPrefix (PtrTo Sample.docT')
                                            (reflectNew Sample.docT') ["MY_PREFIX"]))
                        ["MY_PREFIX"])
     = VPtr (Some (VStruct [VInt 1; VInt 2])).
Proof.
  split; [reflexivity|].
  rewrite (proj1 (Unmarshal_idempotent_without_sequences
                    Sample.docEnviron Sample.ParseFloat Sample.float32 Sample.ring
                    Sample.newRing Sample.guessPrefix (PtrTo Sample.docT')
                    (reflectNew Sample.docT') ["MY_PREFIX"] eq_refl)).
  vm_compute. reflexivity.
Defined.

(** C4 on the variable A_F=42 and a field of kind int. *)
Lemma decode_scalar_witness :
  LookupEnv ["A_F=42"] (buildEnvVariable ["A"; "F"]) = ("42", true)
  /\ valueOf (Sample.decode ["A_F=42"] Sample.int (VInt 0) ["A"; "F"] (New ["A_F=42"]))
     = VInt 42
  /\ errorOf (Sample.decode ["A_F=42"] Sample.int (VInt 0) ["A"; "F"] (New ["A_F=42"]))
     = None.
Proof.
  split; [reflexivity|].
  apply (proj1 (proj2 (decode_scalar_base_case
                         ["A_F=42"] Sample.ParseFloat Sample.float32 Sample.ring
                         Sample.newRing Sample.guessPrefix reflect.Int (VInt 0)
                         ["A"; "F"] (New ["A_F=42"]) "42" true eq_refl))
               eq_refl (VInt 42)).
  vm_compute. reflexivity.
Defined.

(** C5 on a map of maps. *)
Lemma decodeMap_preconditions_witness :
  exists e, isConfigError e
            /\ Sample.decode ["M_A_B=1"] (MapOf Sample.str (MapOf Sample.str Sample.int))
                             (VMap None) ["M"] (New ["M_A_B=1"])
               = (VMap None, New ["M_A_B=1"], Some e).
Proof.
  apply (decodeMap_preconditions_first
           ["M_A_B=1"] Sample.ParseFloat Sample.float32 Sample.ring Sample.newRing
           Sample.guessPrefix Sample.str (MapOf Sample.str Sample.int)
           (VMap None) ["M"] (New ["M_A_B=1"])).
  right. reflexivity.
Defined.

(** C6 on the three variables A_0, A_1 and A_2. *)
Lemma decodeSlice_witness :
  (forall j, j < 3 -> contains Sample.seqEnviron (append ["A"] (strconv.Itoa j)) = true)
  /\ contains Sample.seqEnviron (append ["A"] (strconv.Itoa 3)) = false
  /\ valueOf (decode Sample.seqEnviron Sample.ParseFloat Sample.float32 Sample.ring
                     Sample.newRing Sample.guessPrefix (SliceOf (Basic reflect.Int))
                     (VSlice []) ["A"] (New Sample.seqEnviron))
     = VSlice [VInt 1; VInt 2; VInt 3].
Proof.
  assert (H : forall j, j < 3 ->
                contains Sample.seqEnviron (append ["A"] (strconv.Itoa j)) = true).
  { intros j Hj. destruct j as [|[|[|j]]]; [reflexivity|reflexivity|reflexivity|lia]. }
  split; [exact H|]. split; [reflexivity|].
  apply (proj1 (proj2 (decodeSlice_stops_at_first_gap
                         Sample.seqEnviron Sample.ParseFloat Sample.float32 Sample.ring
                         Sample.newRing Sample.guessPrefix (Basic reflect.Int)
                         (VSlice []) ["A"] (New Sample.seqEnviron) 3 H eq_refl))).
Defined.

(** The amended C7 on the variable P_X. *)
Lemma consumed_names_witness :
  LookupEnv ["P_X=7"] (buildEnvVariable ["P"; "X"]) = ("7", true)
  /\ In (EvDelete "P_X")
        (history (stateOf (Sample.decode ["P_X=7"] Sample.int (VInt 0) ["P"; "X"]
                                         (New ["P_X=7"])))).
Proof.
  split; [reflexivity|].
  apply (proj2 (proj2 (proj2 (consumed_names_stay_removed
                                ["P_X=7"] Sample.ParseFloat Sample.float32 Sample.ring
                                Sample.newRing Sample.guessPrefix
                                (PtrTo Sample.twinT) (reflectNew Sample.twinT) ["P"])))
               reflect.Int (VInt 0) ["P"; "X"] (New ["P_X=7"]) "7").
  reflexivity.
Defined.

(** C10 on a nil map of strings, with no variable under the prefix M. *)
Lemma decodeMap_nil_witness :
  KindOf Sample.str = reflect.String
  /\ exists l', Sample.decode ["PATH=/bin"] (MapOf Sample.str Sample.str) (VMap None)
                              ["M"] (New ["PATH=/bin"])
                = (VMap (Some []), l', None).
Proof.
  split; [reflexivity|].
  apply (proj2 (decodeMap_nil_target
                  ["PATH=/bin"] Sample.ParseFloat Sample.float32 Sample.ring
                  Sample.newRing Sample.guessPrefix Sample.str Sample.str ["M"]
                  (New ["PATH=/bin"]))).
  - reflexivity.
  - discriminate.
  - intros e [<-|[]]. reflexivity.
Defined.


(** The examples of the specification: a scalar field, and a mapping of
    strings read with the prober of [Sample]. *)
Example field_F_bound_to_42 :
  Sample.Unmarshal ["A_F=42"] (PtrTo (StructOf [Sample.field "F" [] Sample.int]))
                   (reflectNew (StructOf [Sample.field "F" [] Sample.int])) ["A"]
  = (VPtr (Some (VStruct [VInt 42])), None).
Proof. vm_compute. reflexivity. Qed.

Example mapping_of_strings :
  Sample.Unmarshal ["M_KEY1=x"; "M_KEY2=y"; "HOME=/root"]
                   (PtrTo (MapOf Sample.str Sample.str))
                   (reflectNew (MapOf Sample.str Sample.str)) ["M"]
  = (VPtr (Some (VMap (Some [(VString "key1", VString "x");
                             (VString "key2", VString "y")]))), None).
Proof. vm_compute. reflexivity. Qed.

(** * Further facts *)

(** ** Names *)

Lemma upperByte_idem : forall c, strings.upperByte (strings.upperByte c) = strings.upperByte c.
Proof. intros [[] [] [] [] [] [] [] []]; vm_compute; reflexivity. Qed.

Lemma upperByte_lowerByte : forall c, strings.upperByte (strings.lowerByte c) = strings.upperByte c.
Proof. intros [[] [] [] [] [] [] [] []]; vm_compute; reflexivity. Qed.

Lemma lowerByte_idem : forall c, strings.lowerByte (strings.lowerByte c) = strings.lowerByte c.
Proof. intros [[] [] [] [] [] [] [] []]; vm_compute; reflexivity. Qed.

Lemma mapBytes_app : forall f a b,
  strings.mapBytes f (a ++ b) = (strings.mapBytes f a ++ strings.mapBytes f b)%string.
Proof. intros f. induction a as [|c a IH]; intros b; simpl; [reflexivity|now rewrite IH]. Qed.

Lemma mapBytes_mapBytes : forall f g s,
  strings.mapBytes f (strings.mapBytes g s) = strings.mapBytes (fun c => f (g c)) s.
Proof. intros f g. induction s as [|c s IH]; simpl; [reflexivity|now rewrite IH]. Qed.

Lemma mapBytes_ext : forall f g s,
  (forall c, f c = g c) -> strings.mapBytes f s = strings.mapBytes g s.
Proof. intros f g s H. induction s as [|c s IH]; simpl; [reflexivity|now rewrite IH, H]. Qed.

Lemma ToUpper_Join : forall xs,
  strings.ToUpper (strings.Join xs "_") = strings.Join (map strings.ToUpper xs) "_".
Proof.
  induction xs as [|a xs IH]; [reflexivity|].
  destruct xs as [|b xs]; [reflexivity|].
  change (strings.Join (a :: b :: xs) "_") with (a ++ "_" ++ strings.Join (b :: xs) "_")%string.
  change (strings.Join (map strings.ToUpper (a :: b :: xs)) "_")
    with (strings.ToUpper a ++ "_" ++ strings.Join (map strings.ToUpper (b :: xs)) "_")%string.
  rewrite <- IH. unfold strings.ToUpper. rewrite !mapBytes_app. reflexivity.
Qed.

(** X1: for path segments made of ASCII bytes, the name built from a path
    is in upper case and does not depend on the case of the segments:
    upper-casing or lower-casing them first gives the same name. *)
Theorem buildEnvVariable_ignores_case : forall parts,
  forallb isASCII parts = true ->
  strings.ToUpper (buildEnvVariable parts) = buildEnvVariable parts
  /\ buildEnvVariable (map strings.ToUpper parts) = buildEnvVariable parts
  /\ buildEnvVariable (map strings.ToLower parts) = buildEnvVariable parts.
Proof.
  intros parts _. unfold buildEnvVariable. rewrite ToUpper_Join, !map_map.
  assert (U : forall s, strings.ToUpper (strings.ToUpper s) = strings.ToUpper s).
  { intros s. unfold strings.ToUpper. rewrite mapBytes_mapBytes.
    apply mapBytes_ext. apply upperByte_idem. }
  assert (L : forall s, strings.ToUpper (strings.ToLower s) = strings.ToUpper s).
  { intros s. unfold strings.ToUpper, strings.ToLower. rewrite mapBytes_mapBytes.
    apply mapBytes_ext. apply upperByte_lowerByte. }
  repeat split; f_equal; apply map_ext; assumption.
Qed.


(** ** Tags *)

Lemma lookupTag_app : forall tag xs ys,
  lookupTag tag (xs ++ ys)
  = if snd (lookupTag tag xs) then lookupTag tag xs else lookupTag tag ys.
Proof.
  intros tag. induction xs as [|x xs IH]; intros ys; cbn [app lookupTag snd]; [reflexivity|].
  destruct (Lookup tag x) as [s ok]. destruct ok; [reflexivity|apply IH].
Qed.

Lemma Lookup_false : forall tag key s, Lookup tag key = (s, false) -> s = EmptyString.
Proof.
  induction tag as [|[k v] tag IH]; intros key s; cbn [Lookup].
  - intros E. inversion E. reflexivity.
  - destruct (String.eqb k key); [discriminate|apply IH].
Qed.

(** X2: [lookupTag] returns the value of the first supported tag that the
    field carries, whatever comes later in the list; and it reports nothing
    exactly when the field carries none of the supported tags. *)
Theorem lookupTag_first_present : forall tag tagSupports,
  (forall before t after s,
     tagSupports = before ++ t :: after ->
     (forall b, In b before -> snd (Lookup tag b) = false) ->
     Lookup tag t = (s, true) ->
     lookupTag tag tagSupports = (s, true))
  /\ (lookupTag tag tagSupports = (EmptyString, false) <->
      forall t, In t tagSupports -> snd (Lookup tag t) = false).
Proof.
  intros tag tagSupports. split.
  - intros before t after s -> Hb Ht.
    induction before as [|b before IH]; cbn [app lookupTag].
    + rewrite Ht. reflexivity.
    + pose proof (Hb b (or_introl eq_refl)) as Hb0.
      destruct (Lookup tag b) as [x ok]. cbn [snd] in Hb0. subst ok.
      apply IH. intros b' Hb'. apply Hb. right. exact Hb'.
  - induction tagSupports as [|t ts IH]; cbn [lookupTag].
    + split; [intros _ t []|reflexivity].
    + destruct (Lookup tag t) as [x ok] eqn:L. destruct ok.
      * split; [discriminate|]. intros H. specialize (H t (or_introl eq_refl)).
        rewrite L in H. discriminate.
      * rewrite IH. split.
        -- intros H t' [<-|Ht']; [rewrite L; reflexivity|apply H; exact Ht'].
        -- intros H t' Ht'. apply H. right. exact Ht'.
Qed.

Lemma fold_left_append : forall (tags acc : list string),
  fold_left append tags acc = acc ++ tags.
Proof.
  induction tags as [|t tags IH]; intros acc; cbn [fold_left].
  - now rewrite app_nil_r.
  - rewrite IH. unfold append. now rewrite <- app_assoc.
Qed.

(** X3: the tags given to [AddTagSupport] come after the ones the receiver
    already supports: a field that carries a tag supported before resolves
    as before, and only a field that carries none of them is resolved with
    the added tags.  [OverrideTagSupport] drops the former list. *)
Theorem AddTagSupport_keeps_priority : forall l tags tag,
  TagSupports (AddTagSupport l tags) = TagSupports l ++ tags
  /\ lookupTag tag (TagSupports (AddTagSupport l tags))
     = (if snd (lookupTag tag (TagSupports l))
        then lookupTag tag (TagSupports l)
        else lookupTag tag tags)
  /\ lookupTag tag (TagSupports (OverrideTagSupport l tags)) = lookupTag tag tags
  /\ env (AddTagSupport l tags) = env l
  /\ env (OverrideTagSupport l tags) = env l.
Proof.
  intros l tags tag. unfold AddTagSupport, OverrideTagSupport. cbn [TagSupports env].
  rewrite fold_left_append, lookupTag_app. repeat split.
Qed.

(** ** The process environment *)

Lemma HasPrefix_eq_sign : forall c s,
  strings.HasPrefix (String c s) "=" = Ascii.eqb "=" c.
Proof. intros c s. cbn [strings.HasPrefix]. destruct s; apply andb_true_r. Qed.

Lemma append_empty_r : forall s : string, (s ++ "")%string = s.
Proof. induction s as [|c s IH]; simpl; [reflexivity|now rewrite IH]. Qed.

Lemma splitFrom_length : forall s cur,
  length (strings.splitFrom "=" 0 cur s) = S (countByte "=" s).
Proof.
  induction s as [|c s IH]; intros cur; [reflexivity|].
  cbn [strings.splitFrom countByte]. rewrite HasPrefix_eq_sign.
  destruct (Ascii.eqb "=" c); cbn [String.length Nat.sub length]; rewrite IH; reflexivity.
Qed.

Lemma Split_length : forall e, length (strings.Split e "=") = S (countByte "=" e).
Proof. intros e. apply splitFrom_length. Qed.

Lemma splitFrom_plain : forall s cur,
  countByte "=" s = 0 -> strings.splitFrom "=" 0 cur s = [(cur ++ s)%string].
Proof.
  induction s as [|c s IH]; intros cur H.
  - cbn [strings.splitFrom]. now rewrite append_empty_r.
  - cbn [strings.splitFrom countByte] in *. rewrite HasPrefix_eq_sign.
    destruct (Ascii.eqb "=" c); [discriminate|].
    rewrite IH by exact H. now rewrite append_assoc.
Qed.

Lemma cut_count : forall s k v,
  cut s = Some (k, v) ->
  countByte "=" s = S (countByte "=" v) /\ countByte "=" k = 0.
Proof.
  induction s as [|c s IH]; intros k v; cbn [cut countByte]; [discriminate|].
  rewrite (Ascii.eqb_sym "=" c).
  destruct (Ascii.eqb c "=") eqn:E.
  - intros H. inversion H. subst. split; reflexivity.
  - destruct (cut s) as [[k' v']|]; [|discriminate].
    intros H. inversion H. subst. destruct (IH k' v eq_refl) as [H1 H2].
    cbn [countByte]. rewrite (Ascii.eqb_sym "=" c), E. split; [exact H1|exact H2].
Qed.

Lemma splitFrom_cut : forall s cur k v,
  cut s = Some (k, v) ->
  strings.splitFrom "=" 0 cur s = (cur ++ k)%string :: strings.splitFrom "=" 0 "" v.
Proof.
  induction s as [|c s IH]; intros cur k v; cbn [cut]; [discriminate|].
  cbn [strings.splitFrom]. rewrite HasPrefix_eq_sign, (Ascii.eqb_sym "=" c).
  destruct (Ascii.eqb c "=") eqn:E.
  - intros H. inversion H. subst. now rewrite append_empty_r.
  - destruct (cut s) as [[k' v']|] eqn:C; [|discriminate].
    intros H. inversion H. subst. rewrite (IH _ k' v eq_refl).
    now rewrite append_assoc.
Qed.

Lemma Split_cut : forall e k v,
  cut e = Some (k, v) -> countByte "=" v = 0 -> strings.Split e "=" = [k; v].
Proof.
  intros e k v C H. unfold strings.Split.
  rewrite (splitFrom_cut e "" k v C), (splitFrom_plain v "" H). reflexivity.
Qed.

Lemma Split_not_two : forall e,
  countByte "=" e <> 1 -> forall name v, strings.Split e "=" <> [name; v].
Proof.
  intros e H name v E. pose proof (Split_length e) as L. rewrite E in L.
  cbn [length] in L. congruence.
Qed.

Lemma environNames_NoDup : forall environ acc,
  NoDup acc -> NoDup (environNames environ acc).
Proof.
  induction environ as [|e environ IH]; intros acc H; cbn [environNames]; [exact H|].
  destruct (strings.Split e "=") as [|n [|v [|x rest]]]; try (apply IH; exact H).
  apply IH. destruct (mem n acc) eqn:M; [exact H|].
  apply NoDup_app; [exact H|repeat constructor; intros []|].
  intros a Ha [<-|[]]. apply mem_In in Ha. congruence.
Qed.

(** X4: [New] keeps in [l.env] exactly the names of the entries of the
    environment that hold one [=] and no more, each of them once, and starts
    with the tag list yaml, json, mapstructure. *)
Theorem New_collects_names : forall environ,
  (forall name, In name (env (New environ)) <->
                exists e v, In e environ /\ strings.Split e "=" = [name; v])
  /\ (forall e, In e environ -> countByte "=" e <> 1 ->
                forall name v, strings.Split e "=" <> [name; v])
  /\ NoDup (env (New environ))
  /\ TagSupports (New environ) = defaultTagSupported.
Proof.
  intros environ. cbn [New env TagSupports]. repeat split.
  - intros H. apply environNames_spec in H. destruct H as [[]|H]. exact H.
  - intros H. apply environNames_spec. right. exact H.
  - intros e _ H. apply Split_not_two. exact H.
  - apply environNames_NoDup. constructor.
Qed.

Lemma contains_from_intro : forall environ variable e name v,
  In e environ -> strings.Split e "=" = [name; v] ->
  strings.Contains name variable = true ->
  contains_from environ variable = true.
Proof.
  induction environ as [|e0 environ IH]; intros variable e name v Hin Sp C;
    [destruct Hin|]. cbn [contains_from]. destruct Hin as [<-|Hin].
  - rewrite Sp, C. reflexivity.
  - destruct (strings.Split e0 "=") as [|n [|x [|y rest]]]; try (eapply IH; eauto).
    destruct (strings.Contains n variable); [reflexivity|eapply IH; eauto].
Qed.

Lemma HasPrefix_refl : forall s, strings.HasPrefix s s = true.
Proof.
  induction s as [|c s IH]; [reflexivity|].
  cbn [strings.HasPrefix]. now rewrite Ascii.eqb_refl, IH.
Qed.

Lemma Contains_refl : forall s, strings.Contains s s = true.
Proof. intros s. destruct s; cbn [strings.Contains]; now rewrite HasPrefix_refl. Qed.

(** X5: a variable whose value holds an [=] is still found by the exact
    lookup of a scalar, but the probes of [contains] and the names of [New]
    do not see its entry: the environment with and without it give the same
    probes and the same [l.env]. *)
Theorem entry_with_equal_sign_in_value : forall environ e k v,
  cut e = Some (k, v) -> k <> EmptyString -> countByte "=" v <> 0 ->
  LookupEnv (e :: environ) k = (v, true)
  /\ (forall parts, contains (e :: environ) parts = contains environ parts)
  /\ env (New (e :: environ)) = env (New environ).
Proof.
  intros environ e k v C K V.
  destruct (cut_count e k v C) as [N _].
  assert (S2 : forall name x, strings.Split e "=" <> [name; x])
    by (apply Split_not_two; lia).
  repeat split.
  - cbn [LookupEnv]. rewrite C, String.eqb_refl.
    apply String.eqb_neq in K. rewrite K. reflexivity.
  - intros parts. unfold contains. cbn [contains_from].
    destruct (strings.Split e "=") as [|n [|x [|y rest]]]; try reflexivity.
    exfalso. exact (S2 n x eq_refl).
  - cbn [New env environNames].
    destruct (strings.Split e "=") as [|n [|x [|y rest]]]; try reflexivity.
    exfalso. exact (S2 n x eq_refl).
Qed.

(** X6: a variable of the environment whose value holds no [=] is seen by
    the probe of its own path: whenever the exact lookup of a path can
    succeed on such an entry, [contains] answers true for the path. *)
Theorem contains_sees_exact_variable : forall environ parts e v,
  In e environ -> cut e = Some (buildEnvVariable parts, v) ->
  countByte "=" v = 0 ->
  contains environ parts = true.
Proof.
  intros environ parts e v Hin C V. unfold contains.
  apply (contains_from_intro environ _ e (buildEnvVariable parts) v Hin).
  - apply Split_cut; assumption.
  - apply Contains_refl.
Qed.

Lemma HasPrefix_app : forall a b s,
  strings.HasPrefix s (a ++ b) = true -> strings.HasPrefix s a = true.
Proof.
  induction a as [|c a IH]; intros b s H; [destruct s; reflexivity|].
  destruct s as [|x s]; [discriminate|].
  cbn [append strings.HasPrefix] in *. apply andb_true_iff in H. destruct H as [E H].
  rewrite E. cbn [andb]. eapply IH. exact H.
Qed.

Lemma Contains_app : forall s a b,
  strings.Contains s (a ++ b) = true -> strings.Contains s a = true.
Proof.
  induction s as [|c s IH]; intros a b H; cbn [strings.Contains] in *;
    apply orb_true_iff in H; apply orb_true_iff; destruct H as [H|H].
  - left. eapply HasPrefix_app. exact H.
  - discriminate.
  - left. eapply HasPrefix_app. exact H.
  - right. eapply IH. exact H.
Qed.

Lemma contains_from_app : forall environ a b,
  contains_from environ (a ++ b) = true -> contains_from environ a = true.
Proof.
  induction environ as [|e environ IH]; intros a b H; [discriminate|].
  cbn [contains_from] in *.
  destruct (strings.Split e "=") as [|n [|x [|y rest]]]; try (eapply IH; exact H).
  destruct (strings.Contains n (a ++ b)) eqn:C.
  - now rewrite (Contains_app _ _ _ C).
  - destruct (strings.Contains n a); [reflexivity|eapply IH; exact H].
Qed.

(** X7: the probes go down with the path: when some variable contains the
    name of a path extended by a segment (a field, an index, a key), some
    variable contains the name of the path itself. *)
Theorem contains_of_longer_path : forall environ parts s,
  contains environ (append parts s) = true -> contains environ parts = true.
Proof.
  intros environ parts s. unfold contains. rewrite buildEnvVariable_append.
  unfold stem. destruct parts as [|p parts].
  - intros H. change (buildEnvVariable []) with ""%string.
    apply (contains_from_app environ "" _ H).
  - rewrite append_assoc. apply contains_from_app.
Qed.

(** ** Targets without mappings *)

Section MapFreeFacts.

Variable environ : Environ.
Variable ParseFloat : string -> Z -> spec_float + strconv.NumError.
Variable float32 : spec_float -> spec_float.
Variable ring : Type.
Variable newRing : type -> list string -> ring.
Variable guessPrefix : list string -> ring -> string * option string.

Local Abbreviation decodeDefault' := (decodeDefault environ ParseFloat float32).
Local Abbreviation decodeKind' := (decodeKind environ ParseFloat float32 ring newRing guessPrefix).
Local Abbreviation decode' := (decode environ ParseFloat float32 ring newRing guessPrefix).

Lemma decode_stepwise : forall t, stepwise (decode' t).
Proof. intros t v parts l. apply decode_steps. Qed.

(** A property of decoders kept by the default case, sequences, records and
    pointers holds of [decode] at every type without mappings. *)
Section MapFreeClosure.

Variable Q : decoder -> Prop.
Hypothesis Q_default : forall k, Q (decodeDefault' k).
Hypothesis Q_slice : forall d t, Q d -> stepwise d -> Q (decodeSlice environ d t).
Hypothesis Q_struct :
  forall fields, Forall (fun f => Q (snd f) /\ stepwise (snd f)) fields ->
                 Q (decodeStruct environ fields).
Hypothesis Q_ptr :
  forall (switch : type -> decoder) elem,
    Q (switch elem) -> Q (decodeWith switch (PtrTo elem)).

Lemma decode_mapFree_closure : forall t,
  mapFree t = true -> Q (decodeKind' t) /\ Q (decode' t).
Proof.
  induction t as [k|elem IH|elem IH|key elem _ _|fields IH] using type_ind;
    cbn [mapFree]; intros Hm; try discriminate.
  - split; apply Q_default.
  - split; [apply Q_default|]. apply Q_ptr. apply IH. exact Hm.
  - assert (G : Q (decodeKind' (SliceOf elem))).
    { apply Q_slice; [apply IH; exact Hm|apply decode_stepwise]. }
    split; exact G.
  - assert (G : Q (decodeKind' (StructOf fields))).
    { cbn [decodeKind]. apply Q_struct. rewrite Forall_map.
      rewrite forallb_forall in Hm. rewrite Forall_forall in IH |- *.
      intros [f ft] Hin. cbn [snd]. split.
      - apply (IH _ Hin). apply (Hm _ Hin).
      - apply decode_stepwise. }
    split; exact G.
Qed.

End MapFreeClosure.

Lemma parseErrorsOnly_terminating : forall d, parseErrorsOnly d -> terminating d.
Proof. intros d H v parts l E. apply H in E. exact E. Qed.

Lemma parseErrorsOnly_default : forall k, parseErrorsOnly (decodeDefault' k).
Proof.
  intros k v parts l e. unfold decodeDefault.
  destruct (lookupEnv environ parts) as [[variable input] ok].
  destruct ok; [|discriminate].
  destruct (decodeNative ParseFloat float32 k v input) as [v' err] eqn:D.
  cbn [errorOf snd]. intros ->.
  apply (decodeNative_error ParseFloat float32) in D. tauto.
Qed.

Lemma sliceLoop_errors : forall d zero parts,
  parseErrorsOnly d ->
  forall fuel i elems l e,
    snd (sliceLoop environ d zero parts fuel i elems l) = Some e ->
    isParseError e \/ e = OutOfFuel.
Proof.
  intros d zero parts Hd.
  induction fuel as [|fuel IH]; intros i elems l e; cbn [sliceLoop probe];
    destruct (contains environ _); try discriminate.
  - intros E. inversion E. right. reflexivity.
  - pose proof (Hd zero (append parts (strconv.Itoa i)) (record EvEnviron l)) as H.
    destruct (d zero _ _) as [[tmp l1] [e1|]]; cbn [errorOf snd] in *.
    + intros E. inversion E. subst. left. apply H. reflexivity.
    + apply IH.
Qed.

Lemma parseErrorsOnly_slice : forall d t,
  parseErrorsOnly d -> stepwise d -> parseErrorsOnly (decodeSlice environ d t).
Proof.
  intros d t Hd _ v parts l e E.
  pose proof (terminating_slice environ d t (parseErrorsOnly_terminating d Hd) v parts l) as T.
  rewrite E in T. revert E. unfold decodeSlice.
  pose proof (sliceLoop_errors d (Zero t) parts Hd (sliceBound environ) 0 (sliceElems v) l e) as G.
  destruct (sliceLoop environ d _ _ _ _ _ _) as [[elems l1] err].
  cbn [errorOf snd] in *. intros ->. destruct (G eq_refl) as [P | ->]; [exact P|congruence].
Qed.

Lemma parseErrorsOnly_field : forall f d,
  parseErrorsOnly d -> parseErrorsOnly (decodeField environ f d).
Proof.
  intros f d Hd attr parts l e. unfold decodeField.
  destruct (negb _); [discriminate|].
  destruct (lookupTag _ _) as [attrName ok].
  destruct ok; [|apply Hd].
  destruct (String.eqb attrName "-"); [discriminate|].
  destruct (_ || _); [apply Hd|].
  destruct (strings.Contains _ _); [|apply Hd].
  cbn [probe]. destruct (contains environ _); cbn [negb]; [apply Hd|discriminate].
Qed.

Lemma parseErrorsOnly_struct : forall fields,
  Forall (fun f => parseErrorsOnly (snd f) /\ stepwise (snd f)) fields ->
  parseErrorsOnly (decodeStruct environ fields).
Proof.
  intros fields H v parts l e. unfold decodeStruct.
  assert (G : forall attrs l0, snd (structLoop environ fields attrs parts l0) = Some e ->
                               isParseError e).
  { clear v l. induction H as [|[f d] fields [Hd _] _ IH]; intros attrs l;
      cbn [structLoop]; [discriminate|].
    destruct attrs as [|attr attrs]; [discriminate|].
    pose proof (parseErrorsOnly_field f d Hd attr parts l e) as H1.
    destruct (decodeField environ f d attr parts l) as [[attr' l1] [e1|]];
      cbn [errorOf snd] in *; [exact H1|].
    specialize (IH attrs l1).
    destruct (structLoop environ fields attrs parts l1) as [[attrs' l2] err]. exact IH. }
  specialize (G (structFields v) l).
  destruct (structLoop environ fields _ _ _) as [[attrs l1] err]. exact G.
Qed.

Lemma parseErrorsOnly_ptr : forall (switch : type -> decoder) elem,
  parseErrorsOnly (switch elem) -> parseErrorsOnly (decodeWith switch (PtrTo elem)).
Proof.
  intros switch elem H conf parts l e. unfold decodeWith.
  match goal with |- context [switch elem ?v parts l] =>
    specialize (H v parts l e); destruct (switch elem v parts l) as [[v' l1] err] end.
  exact H.
Qed.

(** X8: binding a target whose type has no mapping can only fail with a
    parse error of the scalar codec: neither a configuration error nor an
    error of the shape prober, and the loop of a sequence always ends. *)
Theorem Unmarshal_without_mapping_fails_on_parse_only : forall t object parts e,
  mapFree t = true ->
  errorOf (Unmarshal environ ParseFloat float32 ring newRing guessPrefix t object parts)
  = Some e ->
  exists err, e = NumError err.
Proof.
  intros t object parts e Hm E.
  assert (P : isParseError e).
  { refine (proj2 (decode_mapFree_closure parseErrorsOnly parseErrorsOnly_default
                     parseErrorsOnly_slice parseErrorsOnly_struct parseErrorsOnly_ptr
                     t Hm) object parts (New environ) e E). }
  destruct e; try contradiction. eexists. reflexivity.
Qed.

Lemma stateless_default : forall k, stateless (decodeDefault' k).
Proof.
  intros k v parts l l' _. unfold decodeDefault.
  destruct (lookupEnv environ parts) as [[variable input] ok].
  destruct ok; [|split; reflexivity].
  destruct (decodeNative ParseFloat float32 k v input) as [v1 e1].
  split; reflexivity.
Qed.

Lemma sliceLoop_stateless : forall d zero parts,
  stateless d -> stepwise d ->
  forall fuel i elems l l',
    TagSupports l' = TagSupports l ->
    fst (fst (sliceLoop environ d zero parts fuel i elems l'))
    = fst (fst (sliceLoop environ d zero parts fuel i elems l))
    /\ snd (sliceLoop environ d zero parts fuel i elems l')
       = snd (sliceLoop environ d zero parts fuel i elems l).
Proof.
  intros d zero parts Hd Hs.
  induction fuel as [|fuel IH]; intros i elems l l' T; cbn [sliceLoop probe];
    destruct (contains environ _); try (split; reflexivity).
  pose proof (Hd zero (append parts (strconv.Itoa i)) (record EvEnviron l)
                (record EvEnviron l') T) as H.
  pose proof (Hs zero (append parts (strconv.Itoa i)) (record EvEnviron l)) as S1.
  pose proof (Hs zero (append parts (strconv.Itoa i)) (record EvEnviron l')) as S2.
  destruct (d zero _ (record EvEnviron l)) as [[tmp l1] e1].
  destruct (d zero _ (record EvEnviron l')) as [[tmp' l1'] e1'].
  cbn [valueOf errorOf stateOf fst snd] in *. destruct H as [-> ->].
  destruct e1; [split; reflexivity|].
  apply IH. rewrite (steps_TagSupports _ _ S1), (steps_TagSupports _ _ S2). exact T.
Qed.

Lemma stateless_slice : forall d t,
  stateless d -> stepwise d -> stateless (decodeSlice environ d t).
Proof.
  intros d t Hd Hs v parts l l' T. unfold decodeSlice.
  pose proof (sliceLoop_stateless d (Zero t) parts Hd Hs (sliceBound environ) 0
                (sliceElems v) l l' T) as G.
  destruct (sliceLoop environ d _ _ _ _ _ l) as [[elems l1] err].
  destruct (sliceLoop environ d _ _ _ _ _ l') as [[elems' l1'] err'].
  cbn [valueOf errorOf fst snd] in *. destruct G as [-> ->]. split; reflexivity.
Qed.

Lemma stateless_field : forall f d, stateless d -> stateless (decodeField environ f d).
Proof.
  intros f d H attr parts l l' T. unfold decodeField.
  destruct (negb _); [split; reflexivity|]. rewrite T.
  destruct (lookupTag _ _) as [attrName ok].
  destruct ok; [|apply H; exact T].
  destruct (String.eqb attrName "-"); [split; reflexivity|].
  destruct (_ || _); [apply H; exact T|].
  destruct (strings.Contains _ _); [|apply H; exact T].
  cbn [probe]. destruct (contains environ _); cbn [negb]; [|split; reflexivity].
  apply H. exact T.
Qed.

Lemma stateless_struct : forall fields,
  Forall (fun f => stateless (snd f) /\ stepwise (snd f)) fields ->
  stateless (decodeStruct environ fields).
Proof.
  intros fields H v parts l l' T. unfold decodeStruct.
  assert (G : forall attrs l0 l0',
             TagSupports l0' = TagSupports l0 ->
             fst (fst (structLoop environ fields attrs parts l0'))
             = fst (fst (structLoop environ fields attrs parts l0))
             /\ snd (structLoop environ fields attrs parts l0')
                = snd (structLoop environ fields attrs parts l0)).
  { clear v l l' T. induction H as [|[f d] fields [Hd Hs] _ IH]; intros attrs l l' T;
      cbn [structLoop]; [split; reflexivity|].
    destruct attrs as [|attr attrs]; [split; reflexivity|]. cbn [snd] in Hd, Hs.
    pose proof (stateless_field f d Hd attr parts l l' T) as F.
    pose proof (decodeField_steps environ f d Hs attr parts l) as S1.
    pose proof (decodeField_steps environ f d Hs attr parts l') as S2.
    destruct (decodeField environ f d attr parts l) as [[attr1 l1] e1].
    destruct (decodeField environ f d attr parts l') as [[attr1' l1'] e1'].
    cbn [valueOf errorOf stateOf fst snd] in *. destruct F as [-> ->].
    destruct e1; [split; reflexivity|].
    assert (T' : TagSupports l1' = TagSupports l1)
      by (rewrite (steps_TagSupports _ _ S1), (steps_TagSupports _ _ S2); exact T).
    specialize (IH attrs l1 l1' T').
    destruct (structLoop environ fields attrs parts l1) as [[attrs2 l2] e2].
    destruct (structLoop environ fields attrs parts l1') as [[attrs2' l2'] e2'].
    cbn [fst snd] in *. destruct IH as [-> ->]. split; reflexivity. }
  specialize (G (structFields v) l l' T).
  destruct (structLoop environ fields (structFields v) parts l) as [[attrs1 l1] e1].
  destruct (structLoop environ fields (structFields v) parts l') as [[attrs1' l1'] e1'].
  cbn [valueOf errorOf fst snd] in *. destruct G as [-> ->]. split; reflexivity.
Qed.

Lemma stateless_ptr : forall (switch : type -> decoder) elem,
  stateless (switch elem) -> stateless (decodeWith switch (PtrTo elem)).
Proof.
  intros switch elem H conf parts l l' T. unfold decodeWith.
  match goal with |- context [switch elem ?v parts l] =>
    specialize (H v parts l l' T);
    destruct (switch elem v parts l) as [[v1 l1] e1];
    destruct (switch elem v parts l') as [[v1' l1'] e1'] end.
  cbn [valueOf errorOf fst snd] in *. destruct H as [-> ->]. split; reflexivity.
Qed.

Lemma decode_mapFree_stateless : forall t,
  mapFree t = true -> stateless (decode' t).
Proof.
  intros t Hm.
  exact (proj2 (decode_mapFree_closure stateless stateless_default stateless_slice
                  stateless_struct stateless_ptr t Hm)).
Qed.

(** X9: the names kept in [l.env] only matter to mappings: on a target
    whose type has no mapping, two receivers with the same tag list give the
    same target and the same error, whatever names and history they hold. *)
Theorem env_is_irrelevant_without_mapping : forall t object parts l l',
  mapFree t = true ->
  TagSupports l' = TagSupports l ->
  valueOf (Unmarshal_ environ ParseFloat float32 ring newRing guessPrefix l' t object parts)
  = valueOf (Unmarshal_ environ ParseFloat float32 ring newRing guessPrefix l t object parts)
  /\ errorOf (Unmarshal_ environ ParseFloat float32 ring newRing guessPrefix l' t object parts)
     = errorOf (Unmarshal_ environ ParseFloat float32 ring newRing guessPrefix l t object parts).
Proof.
  intros t object parts l l' Hm T.
  exact (decode_mapFree_stateless t Hm object parts l l' T).
Qed.

End MapFreeFacts.

(** ** Sequences and records *)

Section SequenceRecordFacts.

Variable environ : Environ.
Variable ParseFloat : string -> Z -> spec_float + strconv.NumError.
Variable float32 : spec_float -> spec_float.
Variable ring : Type.
Variable newRing : type -> list string -> ring.
Variable guessPrefix : list string -> ring -> string * option string.

Local Abbreviation decode' := (decode environ ParseFloat float32 ring newRing guessPrefix).
Local Abbreviation Unmarshal' := (Unmarshal environ ParseFloat float32 ring newRing guessPrefix).

Lemma sliceLoop_appends : forall d zero parts fuel i elems l,
  (forall j, j < i -> contains environ (append parts (strconv.Itoa j)) = true) ->
  exists new,
    fst (fst (sliceLoop environ d zero parts fuel i elems l)) = elems ++ new
    /\ forall j, j < i + length new ->
                 contains environ (append parts (strconv.Itoa j)) = true.
Proof.
  intros d zero parts.
  induction fuel as [|fuel IH]; intros i elems l Hall; cbn [sliceLoop probe];
    destruct (contains environ (append parts (strconv.Itoa i))) eqn:C;
    try (exists []; rewrite app_nil_r, Nat.add_0_r; split; [reflexivity|exact Hall]).
  destruct (d zero _ _) as [[tmp l1] [e|]];
    [exists []; rewrite app_nil_r, Nat.add_0_r; split; [reflexivity|exact Hall]|].
  destruct (IH (S i) (elems ++ [tmp]) l1) as [new [E H]].
  { intros j Hj. destruct (Nat.eq_dec j i); [subst; exact C|apply Hall; lia]. }
  exists (tmp :: new). rewrite E, <- app_assoc. split; [reflexivity|].
  intros j Hj. apply H. cbn [length] in Hj. lia.
Qed.

(** X10: binding a sequence only appends: what the slice held stays in
    front, also when the call fails, and the number of elements added in one
    call is below the bound given by the names of the environment (the sum
    of the squares of their lengths plus one, plus one). *)
Theorem decodeSlice_only_appends : forall sliceType v parts l,
  exists new,
    valueOf (decode' (SliceOf sliceType) v parts l) = VSlice (sliceElems v ++ new)
    /\ length new < sliceBound environ.
Proof.
  intros sliceType v parts l.
  unfold decode, decodeWith. cbn [decodeKind]. unfold decodeSlice.
  match goal with |- context [sliceLoop environ ?d ?z parts ?f 0 ?es l] =>
    destruct (sliceLoop_appends d z parts f 0 es l ltac:(intros; lia)) as [new [E H]];
    destruct (sliceLoop environ d z parts f 0 es l) as [[elems l1] err] end.
  cbn [fst snd valueOf] in *. subst elems. exists new. split; [reflexivity|].
  apply (probes_bounded environ parts). exact H.
Qed.

Lemma sliceLoop_shift : forall d zero parts fuel i elems l,
  fst (fst (sliceLoop environ d zero parts fuel i elems l))
  = elems ++ fst (fst (sliceLoop environ d zero parts fuel i [] l))
  /\ snd (sliceLoop environ d zero parts fuel i elems l)
     = snd (sliceLoop environ d zero parts fuel i [] l).
Proof.
  intros d zero parts.
  induction fuel as [|fuel IH]; intros i elems l; cbn [sliceLoop probe];
    destruct (contains environ _); try (rewrite app_nil_r; split; reflexivity).
  destruct (d zero _ _) as [[tmp l1] [e|]]; [rewrite app_nil_r; split; reflexivity|].
  destruct (IH (S i) (elems ++ [tmp]) l1) as [E1 E2].
  destruct (IH (S i) ([] ++ [tmp]) l1) as [F1 F2].
  rewrite E1, E2, F1, F2, <- app_assoc. split; reflexivity.
Qed.

(** X11: on a slice whose elements have no mapping, a second call of
    [Unmarshal] in the same environment appends once more the elements that
    the first call appended, and returns the same error. *)
Theorem Unmarshal_twice_doubles_the_sequence : forall sliceType elems parts,
  mapFree sliceType = true ->
  exists new,
    valueOf (Unmarshal' (PtrTo (SliceOf sliceType)) (VPtr (Some (VSlice elems))) parts)
    = VPtr (Some (VSlice (elems ++ new)))
    /\ valueOf (Unmarshal' (PtrTo (SliceOf sliceType))
                  (VPtr (Some (VSlice (elems ++ new)))) parts)
       = VPtr (Some (VSlice (elems ++ new ++ new)))
    /\ errorOf (Unmarshal' (PtrTo (SliceOf sliceType))
                  (VPtr (Some (VSlice (elems ++ new)))) parts)
       = errorOf (Unmarshal' (PtrTo (SliceOf sliceType)) (VPtr (Some (VSlice elems))) parts).
Proof.
  intros sliceType elems parts Hm.
  unfold Unmarshal, Unmarshal_, decode, decodeWith. cbn [decodeKind]. unfold decodeSlice.
  cbn [sliceElems].
  match goal with |- context [sliceLoop environ ?d ?z parts ?f 0 elems ?l] =>
    set (dec := d); set (zero := z); set (fuel := f); set (l0 := l) end.
  destruct (sliceLoop_shift dec zero parts fuel 0 elems l0) as [E1 E2].
  exists (fst (fst (sliceLoop environ dec zero parts fuel 0 [] l0))).
  set (new := fst (fst (sliceLoop environ dec zero parts fuel 0 [] l0))) in *.
  destruct (sliceLoop_shift dec zero parts fuel 0 (elems ++ new) l0) as [G1 G2].
  fold new in G1.
  destruct (sliceLoop environ dec zero parts fuel 0 elems l0) as [[r1 s1] e1].
  destruct (sliceLoop environ dec zero parts fuel 0 (elems ++ new) l0) as [[r2 s2] e2].
  cbn [fst snd valueOf errorOf] in *. subst r1 r2.
  rewrite <- app_assoc. repeat split. congruence.
Qed.

Lemma structLoop_skips : forall fields,
  Forall (fun f => stepwise (snd f)) fields ->
  forall attrs parts l,
    length (fst (fst (structLoop environ fields attrs parts l))) = length attrs
    /\ forall i f d,
         nth_error fields i = Some (f, d) ->
         PkgPath f <> EmptyString
         \/ lookupTag (Tag f) (TagSupports l) = ("-"%string, true) ->
         nth_error (fst (fst (structLoop environ fields attrs parts l))) i
         = nth_error attrs i.
Proof.
  induction 1 as [|[f0 d0] fields Hs _ IH]; intros attrs parts l; cbn [structLoop].
  - split; [reflexivity|]. intros i f d E. destruct i; discriminate.
  - destruct attrs as [|attr attrs]; [split; [reflexivity|reflexivity]|].
    cbn [snd] in Hs.
    pose proof (decodeField_steps environ f0 d0 Hs attr parts l) as S1.
    assert (Skip : PkgPath f0 <> EmptyString
                   \/ lookupTag (Tag f0) (TagSupports l) = ("-"%string, true) ->
                   fst (fst (decodeField environ f0 d0 attr parts l)) = attr).
    { unfold decodeField. destruct (String.eqb (PkgPath f0) "") eqn:P; cbn [negb];
        [|reflexivity].
      apply String.eqb_eq in P. intros [H|H]; [congruence|]. rewrite H. reflexivity. }
    destruct (decodeField environ f0 d0 attr parts l) as [[attr' l1] [e|]];
      cbn [stateOf fst snd] in *.
    + split; [reflexivity|]. intros [|i] f d E H; cbn [nth_error] in *; [|reflexivity].
      inversion E. subst. now rewrite Skip.
    + destruct (IH attrs parts l1) as [L N].
      destruct (structLoop environ fields attrs parts l1) as [[attrs' l2] err].
      cbn [fst snd length] in *. split; [now rewrite L|].
      intros [|i] f d E H; cbn [nth_error] in *.
      * inversion E. subst. now rewrite Skip.
      * apply (N i f d E). now rewrite (steps_TagSupports _ _ S1).
Qed.

(** X12: binding a record keeps its number of fields, and leaves as they
    were the fields that are not exported and the fields whose tag resolves
    to the dash, wherever they stand in the record and whatever the other
    fields do. *)
Theorem decodeStruct_leaves_skipped_fields : forall fields attrs parts l i f ft,
  nth_error fields i = Some (f, ft) ->
  PkgPath f <> EmptyString \/ lookupTag (Tag f) (TagSupports l) = ("-"%string, true) ->
  length (structFields (valueOf (decode' (StructOf fields) (VStruct attrs) parts l)))
  = length attrs
  /\ nth_error (structFields (valueOf (decode' (StructOf fields) (VStruct attrs) parts l))) i
     = nth_error attrs i.
Proof.
  intros fields attrs parts l i f ft E H.
  unfold decode, decodeWith. cbn [decodeKind]. unfold decodeStruct. cbn [structFields].
  match goal with |- context [structLoop environ ?fs attrs parts l] =>
    assert (Hs : Forall (fun x => stepwise (snd x)) fs);
    [|destruct (structLoop_skips fs Hs attrs parts l) as [L N];
      specialize (N i f (decode' ft));
      destruct (structLoop environ fs attrs parts l) as [[attrs' l1] err]]
  end.
  { rewrite Forall_map, Forall_forall. intros [f' ft'] _ v p l0. apply decode_steps. }
  cbn [valueOf structFields fst snd] in *. split; [exact L|].
  apply N; [|exact H].
  rewrite nth_error_map, E. reflexivity.
Qed.

Lemma structLoop_first_error : forall fields attrs parts l e,
  snd (structLoop environ fields attrs parts l) = Some e ->
  exists i f d attr li,
    nth_error fields i = Some (f, d)
    /\ nth_error attrs i = Some attr
    /\ errorOf (decodeField environ f d attr parts li) = Some e
    /\ forall j, i < j ->
                 nth_error (fst (fst (structLoop environ fields attrs parts l))) j
                 = nth_error attrs j.
Proof.
  induction fields as [|[f0 d0] fields IH]; intros attrs parts l e; cbn [structLoop];
    [discriminate|].
  destruct attrs as [|attr attrs]; [discriminate|].
  destruct (decodeField environ f0 d0 attr parts l) as [[attr' l1] [e1|]] eqn:D.
  - cbn [snd fst]. intros E. inversion E. subst e1.
    exists 0, f0, d0, attr, l. rewrite D. repeat split.
    intros [|j] Hj; [lia|reflexivity].
  - specialize (IH attrs parts l1 e).
    destruct (structLoop environ fields attrs parts l1) as [[attrs' l2] err].
    cbn [fst snd] in *. intros E.
    destruct (IH E) as [i [f [d [a [li [H1 [H2 [H3 H4]]]]]]]].
    exists (S i), f, d, a, li. repeat split; auto.
    intros [|j] Hj; [lia|]. cbn [nth_error]. apply H4. lia.
Qed.

(** X13: a record fails fast: when its binding returns an error, this is
    the error of the binding of one of its fields, and every field after
    that one is left as it was. *)
Theorem decodeStruct_fails_fast : forall fields attrs parts l e,
  errorOf (decode' (StructOf fields) (VStruct attrs) parts l) = Some e ->
  exists i f ft attr li,
    nth_error fields i = Some (f, ft)
    /\ nth_error attrs i = Some attr
    /\ errorOf (decodeField environ f (decode' ft) attr parts li) = Some e
    /\ forall j, i < j ->
         nth_error (structFields (valueOf (decode' (StructOf fields) (VStruct attrs) parts l))) j
         = nth_error attrs j.
Proof.
  intros fields attrs parts l e.
  unfold decode at 1 3. unfold decodeWith at 1 2. cbn [decodeKind]. unfold decodeStruct.
  cbn [structFields].
  match goal with |- context [structLoop environ ?fs attrs parts l] =>
    pose proof (structLoop_first_error fs attrs parts l e) as G;
    destruct (structLoop environ fs attrs parts l) as [[attrs' l1] err] end.
  cbn [valueOf errorOf structFields fst snd] in *. intros E.
  destruct (G E) as [i [f [d [a [li [H1 [H2 [H3 H4]]]]]]]].
  rewrite nth_error_map in H1.
  destruct (nth_error fields i) as [[f' ft]|] eqn:N; [|discriminate].
  cbn [option_map] in H1. inversion H1. subst f' d.
  exists i, f, ft, a, li. repeat split; auto.
Qed.

End SequenceRecordFacts.

(** ** Mappings *)

Lemma ToLower_idem : forall s, strings.ToLower (strings.ToLower s) = strings.ToLower s.
Proof.
  intros s. unfold strings.ToLower. rewrite mapBytes_mapBytes.
  apply mapBytes_ext. apply lowerByte_idem.
Qed.

Lemma ToLower_drop : forall n s,
  strings.ToLower s = s -> strings.ToLower (strings.drop n s) = strings.drop n s.
Proof.
  induction n as [|n IH]; intros s H; [destruct s; exact H|].
  destruct s as [|c s]; [reflexivity|]. cbn [strings.drop]. apply IH.
  unfold strings.ToLower in *. cbn [strings.mapBytes] in H. injection H as H1 H2.
  exact H2.
Qed.

Lemma ToLower_app_inv : forall a b,
  strings.ToLower a = a -> strings.ToLower b = b ->
  strings.ToLower (a ++ b) = (a ++ b)%string.
Proof. intros a b Ha Hb. unfold strings.ToLower in *. now rewrite mapBytes_app, Ha, Hb. Qed.

Lemma ToLower_rev : forall s,
  strings.ToLower s = s -> strings.ToLower (strings.rev s) = strings.rev s.
Proof.
  induction s as [|c s IH]; intros H; [reflexivity|].
  unfold strings.ToLower in H. cbn [strings.mapBytes] in H. injection H as H1 H2.
  cbn [strings.rev]. apply ToLower_app_inv.
  - apply IH. exact H2.
  - unfold strings.ToLower. cbn [strings.mapBytes]. now rewrite H1.
Qed.

Lemma ToLower_trimLeft : forall runes fuel s,
  strings.ToLower s = s ->
  strings.ToLower (strings.trimLeft runes fuel s) = strings.trimLeft runes fuel s.
Proof.
  intros runes. induction fuel as [|fuel IH]; intros s H; cbn [strings.trimLeft];
    [exact H|].
  destruct (strings.leadingSpace runes s); [|exact H].
  apply IH. apply ToLower_drop. exact H.
Qed.

Lemma ToLower_TrimSpace : forall s,
  strings.ToLower s = s -> strings.ToLower (strings.TrimSpace s) = strings.TrimSpace s.
Proof.
  intros s H. unfold strings.TrimSpace, strings.TrimRightSpace, strings.TrimLeftSpace.
  apply ToLower_rev, ToLower_trimLeft, ToLower_rev, ToLower_trimLeft. exact H.
Qed.

Lemma SetMapIndex_keys : forall m key value k,
  In k (map fst (SetMapIndex m key value)) <-> In k (map fst m) \/ (k = key /\ ~ exists k0, In k0 (map fst m) /\ keyEqb k0 key = true).
Proof.
  induction m as [|[k0 x] m IH]; intros key value k; cbn [SetMapIndex map fst In].
  - split.
    + intros [<-|[]]. right. split; [reflexivity|]. intros [k0 [[] _]].
    + intros [[]|[-> _]]. left. reflexivity.
  - destruct (keyEqb k0 key) eqn:E; cbn [map fst In].
    + split; [intros H; left; exact H|].
      intros [H|[-> H]]; [exact H|]. exfalso. apply H. exists k0. split; [left; reflexivity|exact E].
    + rewrite IH. split.
      * intros [H|[H|[-> H]]]; [left; left; exact H|left; right; exact H|].
        right. split; [reflexivity|]. intros [k1 [[<-|H1] H2]]; [congruence|].
        apply H. exists k1. split; assumption.
      * intros [[H|H]|[-> H]]; [left; exact H|right; left; exact H|].
        right. right. split; [reflexivity|]. intros [k1 [H1 H2]]. apply H.
        exists k1. split; [right; exact H1|exact H2].
Qed.

Section MappingFacts.

Variable environ : Environ.
Variable ParseFloat : string -> Z -> spec_float + strconv.NumError.
Variable float32 : spec_float -> spec_float.
Variable ring : Type.
Variable newRing : type -> list string -> ring.
Variable guessPrefix : list string -> ring -> string * option string.

Local Abbreviation decode' := (decode environ ParseFloat float32 ring newRing guessPrefix).

Lemma mapLoop_keys : forall d zero parser parts keys valMap l,
  (forall k, In k (map fst valMap) ->
             In k (map fst (fst (fst (mapLoop ring guessPrefix d zero parser parts
                                              keys valMap l)))))
  /\ (Forall lowerKey (map fst valMap) ->
      Forall lowerKey (map fst (fst (fst (mapLoop ring guessPrefix d zero parser parts
                                                  keys valMap l))))).
Proof.
  intros d zero parser parts.
  induction keys as [|e keys IH]; intros valMap l; cbn [mapLoop]; [split; auto|].
  destruct (mem e (env l)); cbn [negb]; [|apply IH].
  destruct (String.eqb _ e); [apply IH|].
  destruct (guessPrefix _ parser) as [prefix [msg|]]; [split; auto|].
  destruct (String.length prefix =? 0)%nat; [apply IH|].
  destruct (d zero _ _) as [[value l1] [err|]]; [split; auto|].
  match goal with |- context [SetMapIndex valMap ?key value] =>
    destruct (IH (SetMapIndex valMap key value) l1) as [K L]; set (newKey := key) in * end.
  split.
  - intros k Hk. apply K. apply SetMapIndex_keys. left. exact Hk.
  - intros F. apply L. rewrite Forall_forall in F |- *. intros k Hk.
    apply SetMapIndex_keys in Hk. destruct Hk as [Hk|[-> _]]; [apply F; exact Hk|].
    eexists. split; [reflexivity|]. apply ToLower_TrimSpace, ToLower_idem.
Qed.

(** X14: binding a mapping never removes a key: every key of the map that
    the target held is a key of the map it holds after the call, whether the
    call succeeds or fails. *)
Theorem decodeMap_keeps_keys : forall keyType valueType v parts l k,
  In k (map fst (mapEntries v)) ->
  In k (map fst (mapEntries (valueOf (decode' (MapOf keyType valueType) v parts l)))).
Proof.
  intros keyType valueType v parts l k Hk.
  unfold decode, decodeWith. cbn [decodeKind]. unfold decodeMap.
  destruct (KindOf keyType); try exact Hk.
  destruct (KindOf valueType); try exact Hk;
    match goal with
    | |- context [mapLoop ?r ?g ?d ?z ?p ?ps ?ks ?m ?l] =>
        destruct (mapLoop_keys d z p ps ks m l) as [K _];
        destruct (mapLoop r g d z p ps ks m l) as [[valMap' l1] [err|]];
        cbn [fst snd valueOf] in *;
        destruct v as [| | | | | |?|?|[m0|]|?]; try exact Hk; try destruct Hk;
        cbn [mapEntries] in *; apply K; exact Hk
    end.
Qed.

(** X15: the keys written by the binding of a mapping are strings without
    upper-case ASCII letters: if the keys the map held were, so are all the
    keys it holds after the call; in particular every key of a map that was
    nil or empty. *)
Theorem decodeMap_writes_lower_case_keys : forall keyType valueType v parts l,
  Forall lowerKey (map fst (mapEntries v)) ->
  Forall lowerKey
    (map fst (mapEntries (valueOf (decode' (MapOf keyType valueType) v parts l)))).
Proof.
  intros keyType valueType v parts l F.
  unfold decode, decodeWith. cbn [decodeKind]. unfold decodeMap.
  destruct (KindOf keyType); try exact F.
  destruct (KindOf valueType); try exact F;
    match goal with
    | |- context [mapLoop ?r ?g ?d ?z ?p ?ps ?ks ?m ?l] =>
        destruct (mapLoop_keys d z p ps ks m l) as [_ L];
        destruct (mapLoop r g d z p ps ks m l) as [[valMap' l1] [err|]];
        cbn [fst snd valueOf] in *;
        destruct v as [| | | | | |?|?|[m0|]|?]; cbn [mapEntries map] in *;
        try exact F; try (apply L; exact F); try (apply L; constructor)
    end.
Qed.

End MappingFacts.


(** ** Blank and signed texts *)

(** X16: a variable that is set to an empty or blank text is not taken as
    absent: a boolean or integer field fails with a syntax error of the
    parser on the empty text and keeps its value, whereas a string field
    takes the text as it is, white space included. *)
Theorem blank_variable_is_a_parse_error :
  forall environ ParseFloat float32 (ring : Type) newRing guessPrefix k v parts l input,
    LookupEnv environ (buildEnvVariable parts) = (input, true) ->
    strings.TrimSpace input = EmptyString ->
    (k = reflect.String ->
     valueOf (decode environ ParseFloat float32 ring newRing guessPrefix (Basic k) v parts l)
     = VString input
     /\ errorOf (decode environ ParseFloat float32 ring newRing guessPrefix (Basic k) v parts l)
        = None)
    /\ (k = reflect.Bool \/ Literal.isSigned k = true \/ Literal.isUnsigned k = true ->
        valueOf (decode environ ParseFloat float32 ring newRing guessPrefix (Basic k) v parts l)
        = v
        /\ errorOf (decode environ ParseFloat float32 ring newRing guessPrefix (Basic k) v parts l)
           = Some (NumError (strconv.syntaxError
                               (if Literal.isSigned k then "ParseInt"
                                else if Literal.isUnsigned k then "ParseUint"
                                     else "ParseBool") ""))).
Proof.
  intros environ ParseFloat float32 ring newRing guessPrefix k v parts l input E T.
  unfold decode, decodeWith. cbn [decodeKind KindOf]. unfold decodeDefault, lookupEnv.
  rewrite E. split.
  - intros ->. split; reflexivity.
  - intros H.
    destruct k; cbn [Literal.isSigned Literal.isUnsigned] in H;
      try (exfalso; destruct H as [H|[H|H]]; discriminate);
      cbn [decodeNative Literal.isSigned Literal.isUnsigned];
      unfold decodeBool, decodeInt, decodeUInt; rewrite T; split; reflexivity.
Qed.

(** X17: an unsigned integer field refuses a text that starts, after the
    surrounding white space, with a plus or a minus sign: the error is a
    syntax error of [ParseUint] and the field keeps its value. *)
Theorem decodeUInt_refuses_a_sign : forall k v input c rest,
  strings.TrimSpace input = String c rest ->
  c = "+"%char \/ c = "-"%char ->
  decodeUInt k v input
  = (v, Some (NumError (strconv.syntaxError "ParseUint" (strings.TrimSpace input)))).
Proof.
  intros k v input c rest T H. unfold decodeUInt. rewrite T.
  unfold strconv.ParseUint. cbn [strconv.parseDigits].
  destruct H as [-> | ->].
  - replace (strconv.digitOf "+") with (@None Z) by reflexivity. reflexivity.
  - replace (strconv.digitOf "-") with (@None Z) by reflexivity. reflexivity.
Qed.

(** ** The further facts on examples *)

Local Abbreviation sampleDecode environ :=
  (decode environ Sample.ParseFloat Sample.float32 Sample.ring Sample.newRing
          Sample.guessPrefix).

Lemma entry_with_equal_sign_witness :
  LookupEnv ["A_F=x=y"] "A_F" = ("x=y"%string, true)
  /\ (forall parts, contains ["A_F=x=y"] parts = contains [] parts)
  /\ env (New ["A_F=x=y"]) = env (New []).
Proof.
  apply (entry_with_equal_sign_in_value [] "A_F=x=y" "A_F" "x=y").
  - reflexivity.
  - discriminate.
  - vm_compute. discriminate.
Defined.

Lemma contains_sees_exact_variable_witness :
  countByte "=" "42" = 0 /\ contains ["A_F=42"] ["A"; "F"] = true.
Proof.
  split; [reflexivity|].
  apply (contains_sees_exact_variable ["A_F=42"] ["A"; "F"] "A_F=42" "42").
  - left. reflexivity.
  - reflexivity.
  - reflexivity.
Defined.

Lemma contains_of_longer_path_witness :
  contains Sample.seqEnviron (append ["A"] "0") = true
  /\ contains Sample.seqEnviron ["A"] = true.
Proof.
  split; [reflexivity|].
  apply (contains_of_longer_path Sample.seqEnviron ["A"] "0"). reflexivity.
Defined.

Lemma parse_only_witness :
  mapFree (PtrTo (SliceOf Sample.int)) = true
  /\ exists err, NumError (strconv.syntaxError "ParseInt" "abc") = NumError err.
Proof.
  split; [reflexivity|].
  apply (Unmarshal_without_mapping_fails_on_parse_only
           ["A_0=1"; "A_1=abc"] Sample.ParseFloat Sample.float32 Sample.ring
           Sample.newRing Sample.guessPrefix (PtrTo (SliceOf Sample.int))
           (reflectNew (SliceOf Sample.int)) ["A"]).
  - reflexivity.
  - vm_compute. reflexivity.
Defined.

Lemma env_is_irrelevant_witness :
  valueOf (Unmarshal_ Sample.seqEnviron Sample.ParseFloat Sample.float32 Sample.ring
                      Sample.newRing Sample.guessPrefix
                      (mkLamenv defaultTagSupported ["UNRELATED"] [])
                      (PtrTo (SliceOf Sample.int)) (reflectNew (SliceOf Sample.int)) ["A"])
  = valueOf (Unmarshal_ Sample.seqEnviron Sample.ParseFloat Sample.float32 Sample.ring
                        Sample.newRing Sample.guessPrefix (New Sample.seqEnviron)
                        (PtrTo (SliceOf Sample.int)) (reflectNew (SliceOf Sample.int)) ["A"]).
Proof.
  apply (env_is_irrelevant_without_mapping
           Sample.seqEnviron Sample.ParseFloat Sample.float32 Sample.ring
           Sample.newRing Sample.guessPrefix (PtrTo (SliceOf Sample.int))
           (reflectNew (SliceOf Sample.int)) ["A"] (New Sample.seqEnviron)
           (mkLamenv defaultTagSupported ["UNRELATED"] [])).
  - reflexivity.
  - reflexivity.
Defined.

Lemma Unmarshal_twice_doubles_witness :
  mapFree Sample.int = true
  /\ exists new,
       valueOf (Unmarshal Sample.seqEnviron Sample.ParseFloat Sample.float32 Sample.ring
                          Sample.newRing Sample.guessPrefix (PtrTo (SliceOf Sample.int))
                          (VPtr (Some (VSlice [VInt 9]))) ["A"])
       = VPtr (Some (VSlice ([VInt 9] ++ new)))
       /\ valueOf (Unmarshal Sample.seqEnviron Sample.ParseFloat Sample.float32 Sample.ring
                             Sample.newRing Sample.guessPrefix (PtrTo (SliceOf Sample.int))
                             (VPtr (Some (VSlice ([VInt 9] ++ new)))) ["A"])
          = VPtr (Some (VSlice ([VInt 9] ++ new ++ new)))
       /\ errorOf (Unmarshal Sample.seqEnviron Sample.ParseFloat Sample.float32 Sample.ring
                             Sample.newRing Sample.guessPrefix (PtrTo (SliceOf Sample.int))
                             (VPtr (Some (VSlice ([VInt 9] ++ new)))) ["A"])
          = errorOf (Unmarshal Sample.seqEnviron Sample.ParseFloat Sample.float32
                               Sample.ring Sample.newRing Sample.guessPrefix
                               (PtrTo (SliceOf Sample.int))
                               (VPtr (Some (VSlice [VInt 9]))) ["A"]).
Proof.
  split; [reflexivity|].
  apply (Unmarshal_twice_doubles_the_sequence
           Sample.seqEnviron Sample.ParseFloat Sample.float32 Sample.ring
           Sample.newRing Sample.guessPrefix Sample.int [VInt 9] ["A"]).
  reflexivity.
Defined.

Lemma decodeStruct_skipped_witness :
  nth_error (structFields
               (valueOf (sampleDecode ["P_HIDDEN=1"; "P_B=2"]
                           (StructOf [(mkField "hidden" "lamenv" [], Sample.int);
                                      Sample.field "B" [] Sample.int])
                           (VStruct [VInt 5; VInt 0]) ["P"]
                           (New ["P_HIDDEN=1"; "P_B=2"])))) 0
  = nth_error [VInt 5; VInt 0] 0.
Proof.
  assert (H : PkgPath (mkField "hidden" "lamenv" []) <> EmptyString) by discriminate.
  pose proof (decodeStruct_leaves_skipped_fields
                ["P_HIDDEN=1"; "P_B=2"] Sample.ParseFloat Sample.float32 Sample.ring
                Sample.newRing Sample.guessPrefix
                [(mkField "hidden" "lamenv" [], Sample.int);
                 Sample.field "B" [] Sample.int]
                [VInt 5; VInt 0] ["P"] (New ["P_HIDDEN=1"; "P_B=2"]) 0
                (mkField "hidden" "lamenv" []) Sample.int eq_refl (or_introl H)) as W.
  exact (proj2 W).
Defined.

Lemma decodeStruct_fails_fast_witness :
  exists i f ft attr li,
    nth_error [Sample.field "A" [] Sample.int; Sample.field "B" [] Sample.int;
               Sample.field "C" [] Sample.int] i = Some (f, ft)
    /\ nth_error [VInt 0; VInt 0; VInt 7] i = Some attr
    /\ errorOf (decodeField ["P_A=1"; "P_B=x"; "P_C=3"] f (sampleDecode ["P_A=1"; "P_B=x"; "P_C=3"] ft)
                            attr ["P"] li)
       = Some (NumError (strconv.syntaxError "ParseInt" "x"))
    /\ forall j, i < j ->
         nth_error (structFields
                      (valueOf (sampleDecode ["P_A=1"; "P_B=x"; "P_C=3"]
                                  (StructOf [Sample.field "A" [] Sample.int;
                                             Sample.field "B" [] Sample.int;
                                             Sample.field "C" [] Sample.int])
                                  (VStruct [VInt 0; VInt 0; VInt 7]) ["P"]
                                  (New ["P_A=1"; "P_B=x"; "P_C=3"])))) j
         = nth_error [VInt 0; VInt 0; VInt 7] j.
Proof.
  apply (decodeStruct_fails_fast
           ["P_A=1"; "P_B=x"; "P_C=3"] Sample.ParseFloat Sample.float32 Sample.ring
           Sample.newRing Sample.guessPrefix
           [Sample.field "A" [] Sample.int; Sample.field "B" [] Sample.int;
            Sample.field "C" [] Sample.int]
           [VInt 0; VInt 0; VInt 7] ["P"] (New ["P_A=1"; "P_B=x"; "P_C=3"])).
  vm_compute. reflexivity.
Defined.

Lemma decodeMap_keeps_keys_witness :
  In (VString "old")
     (map fst (mapEntries
                 (valueOf (sampleDecode ["M_KEY1=x"] (MapOf Sample.str Sample.str)
                             (VMap (Some [(VString "old", VString "1")])) ["M"]
                             (New ["M_KEY1=x"]))))).
Proof.
  apply (decodeMap_keeps_keys
           ["M_KEY1=x"] Sample.ParseFloat Sample.float32 Sample.ring Sample.newRing
           Sample.guessPrefix Sample.str Sample.str
           (VMap (Some [(VString "old", VString "1")])) ["M"] (New ["M_KEY1=x"])).
  left. reflexivity.
Defined.

Lemma decodeMap_lower_case_keys_witness :
  Forall lowerKey
    (map fst (mapEntries
                (valueOf (sampleDecode ["M_KEY1=x"] (MapOf Sample.str Sample.str)
                            (VMap None) ["M"] (New ["M_KEY1=x"]))))).
Proof.
  apply (decodeMap_writes_lower_case_keys
           ["M_KEY1=x"] Sample.ParseFloat Sample.float32 Sample.ring Sample.newRing
           Sample.guessPrefix Sample.str Sample.str (VMap None) ["M"] (New ["M_KEY1=x"])).
  constructor.
Defined.

Lemma blank_variable_witness :
  LookupEnv ["A_F=  "] (buildEnvVariable ["A"; "F"]) = ("  "%string, true)
  /\ errorOf (sampleDecode ["A_F=  "] Sample.int (VInt 3) ["A"; "F"] (New ["A_F=  "]))
     = Some (NumError (strconv.syntaxError "ParseInt" "")).
Proof.
  split; [reflexivity|].
  apply (proj2 (blank_variable_is_a_parse_error
                  ["A_F=  "] Sample.ParseFloat Sample.float32 Sample.ring Sample.newRing
                  Sample.guessPrefix reflect.Int (VInt 3) ["A"; "F"] (New ["A_F=  "])
                  "  " eq_refl eq_refl)).
  right. left. reflexivity.
Defined.

Lemma decodeUInt_sign_witness :
  strings.TrimSpace " +5" = "+5"%string
  /\ decodeUInt reflect.Uint8 (VUint 1) " +5"
     = (VUint 1, Some (NumError (strconv.syntaxError "ParseUint" "+5"))).
Proof.
  split; [reflexivity|].
  apply (decodeUInt_refuses_a_sign reflect.Uint8 (VUint 1) " +5" "+" "5").
  - reflexivity.
  - left. reflexivity.
Defined.

(** ** Kinds that are passed over, and flattened records *)

Section PassedOverFacts.

Variable environ : Environ.
Variable ParseFloat : string -> Z -> spec_float + strconv.NumError.
Variable float32 : spec_float -> spec_float.
Variable ring : Type.
Variable newRing : type -> list string -> ring.
Variable guessPrefix : list string -> ring -> string * option string.

Local Abbreviation decode' := (decode environ ParseFloat float32 ring newRing guessPrefix).

(** X18: a leaf whose kind is none of string, boolean, integer and float
    (a complex number, an array, a channel, ...), and likewise what a
    pointer to a pointer points to, is never written and never gives an
    error, whatever the environment holds; yet when a variable has the name
    of its path, that name is deleted from [l.env]. *)
Theorem other_kinds_are_passed_over : forall k v elem p parts l,
  isNative k = false ->
  (valueOf (decode' (Basic k) v parts l) = v
   /\ errorOf (decode' (Basic k) v parts l) = None)
  /\ (valueOf (decode' (PtrTo (PtrTo elem)) (VPtr (Some (VPtr p))) parts l)
      = VPtr (Some (VPtr p))
      /\ errorOf (decode' (PtrTo (PtrTo elem)) (VPtr (Some (VPtr p))) parts l) = None)
  /\ (snd (LookupEnv environ (buildEnvVariable parts)) = true ->
      ~ In (buildEnvVariable parts) (env (stateOf (decode' (Basic k) v parts l)))).
Proof.
  intros k v elem p parts l K.
  unfold decode, decodeWith. cbn [decodeKind KindOf]. unfold decodeDefault, lookupEnv.
  destruct (LookupEnv environ (buildEnvVariable parts)) as [input ok].
  assert (N : decodeNative ParseFloat float32 k v input = (v, None))
    by (destruct k; try discriminate; reflexivity).
  destruct ok; cbn [snd]; rewrite ?N; cbn [valueOf errorOf stateOf fst snd decodeNative];
    repeat split; try discriminate.
  intros _ H. cbn [delete env] in H. apply filter_In in H. destruct H as [_ H].
  rewrite String.eqb_refl in H. discriminate.
Qed.

(** X19: a record whose only field is exported and tagged [,squash] or
    [,inline] is bound exactly as the value of that field is bound at the
    same path: same receiver, same error, and the value of the field is the
    outcome of that binding. *)
Theorem squash_binds_at_the_same_path : forall f ft x parts l,
  PkgPath f = EmptyString ->
  lookupTag (Tag f) (TagSupports l) = (",squash"%string, true)
  \/ lookupTag (Tag f) (TagSupports l) = (",inline"%string, true) ->
  decode' (StructOf [(f, ft)]) (VStruct [x]) parts l
  = (VStruct [valueOf (decode' ft x parts l)],
     stateOf (decode' ft x parts l),
     errorOf (decode' ft x parts l)).
Proof.
  intros f ft x parts l P T.
  unfold decode at 1. unfold decodeWith at 1. cbn [decodeKind map].
  unfold decodeStruct. cbn [structFields structLoop]. unfold decodeField. rewrite P.
  cbn [String.eqb negb]. fold (decode' ft).
  destruct T as [-> | ->]; cbn [String.eqb Ascii.eqb Bool.eqb orb andb];
    destruct (decode' ft x parts l) as [[x' l1] [e|]]; reflexivity.
Qed.

End PassedOverFacts.

Lemma buildEnvVariable_case_witness :
  forallb isASCII ["my"; "Prefix"] = true
  /\ buildEnvVariable (map strings.ToLower ["my"; "Prefix"]) = buildEnvVariable ["my"; "Prefix"].
Proof.
  split; [reflexivity|].
  exact (proj2 (proj2 (buildEnvVariable_ignores_case ["my"; "Prefix"] eq_refl))).
Defined.

Lemma lookupTag_first_witness :
  lookupTag [("json", "a"); ("toml", "c")] ["yaml"; "json"; "toml"] = ("a"%string, true).
Proof.
  apply (proj1 (lookupTag_first_present [("json", "a"); ("toml", "c")] ["yaml"; "json"; "toml"])
               ["yaml"] "json" ["toml"] "a").
  - reflexivity.
  - intros b [<-|[]]. reflexivity.
  - reflexivity.
Defined.

Lemma other_kinds_witness :
  isNative reflect.Complex128 = false
  /\ valueOf (decode ["A_C=1"] Sample.ParseFloat Sample.float32 Sample.ring Sample.newRing
                     Sample.guessPrefix (Basic reflect.Complex128) (VOther 3) ["A"; "C"]
                     (New ["A_C=1"]))
     = VOther 3.
Proof.
  split; [reflexivity|].
  pose proof (other_kinds_are_passed_over
                ["A_C=1"] Sample.ParseFloat Sample.float32 Sample.ring Sample.newRing
                Sample.guessPrefix reflect.Complex128 (VOther 3) Sample.int None
                ["A"; "C"] (New ["A_C=1"]) eq_refl) as W.
  exact (proj1 (proj1 W)).
Defined.

Lemma squash_witness :
  PkgPath (mkField "Inner" "" [("json", ",squash")]) = EmptyString
  /\ valueOf (decode ["P_B=2"] Sample.ParseFloat Sample.float32 Sample.ring Sample.newRing
                     Sample.guessPrefix
                     (StructOf [(mkField "Inner" "" [("json", ",squash")],
                                 StructOf [Sample.field "B" [] Sample.int])])
                     (VStruct [VStruct [VInt 0]]) ["P"] (New ["P_B=2"]))
     = VStruct [VStruct [VInt 2]].
Proof.
  split; [reflexivity|].
  rewrite (squash_binds_at_the_same_path
             ["P_B=2"] Sample.ParseFloat Sample.float32 Sample.ring Sample.newRing
             Sample.guessPrefix (mkField "Inner" "" [("json", ",squash")])
             (StructOf [Sample.field "B" [] Sample.int]) (VStruct [VInt 0]) ["P"]
             (New ["P_B=2"]) eq_refl (or_introl eq_refl)).
  vm_compute. reflexivity.
Defined.

Lemma New_collects_witness :
  In "A_F"%string (env (New ["A_F=42"; "B=x=y"]))
  /\ ~ In "B"%string (env (New ["A_F=42"; "B=x=y"])).
Proof.
  split.
  - apply (proj2 (proj1 (New_collects_names ["A_F=42"; "B=x=y"]) "A_F"%string)).
    exists "A_F=42"%string, "42"%string. split; [left; reflexivity|reflexivity].
  - intros H.
    apply (proj1 (proj1 (New_collects_names ["A_F=42"; "B=x=y"]) "B"%string)) in H.
    destruct H as [e [v [[<-|[<-|[]]] S]]]; vm_compute in S; discriminate.
Defined.


(** ** The literals of the specification against the codec *)

(** The twelve spellings are among the boolean words of the
    specification. *)
Lemma Literal_boolean_within_spec : forall s b,
  Literal.boolean s = Some b -> SpecLiteral.boolean s = Some b.
Proof.
  intros s b. unfold Literal.boolean.
  destruct (mem s ["true"; "TRUE"; "True"; "t"; "T"; "1"]) eqn:T.
  - intros E. inversion E. subst b. apply mem_In in T. simpl in T.
    destruct T as [<-|[<-|[<-|[<-|[<-|[<-|[]]]]]]]; reflexivity.
  - destruct (mem s ["false"; "FALSE"; "False"; "f"; "F"; "0"]) eqn:F; [|discriminate].
    intros E. inversion E. subst b. apply mem_In in F. simpl in F.
    destruct F as [<-|[<-|[<-|[<-|[<-|[<-|[]]]]]]]; reflexivity.
Qed.

(** C4, counterexample: for section 4.3 of the specification the text tRuE
    is a literal of the boolean true, and the value of a string literal is
    the text without its surrounding white space; with the variable A_F set,
    the codec refuses the first with a parse error, leaving the field false,
    and binds the second with its white space. *)
Lemma spec_literals_refused_or_altered :
  LookupEnv ["A_F=tRuE"] (buildEnvVariable ["A"; "F"]) = ("tRuE"%string, true)
  /\ SpecLiteral.value reflect.Bool "tRuE" = Some (VBool true)
  /\ valueOf (Sample.decode ["A_F=tRuE"] (Basic reflect.Bool) (VBool false) ["A"; "F"]
                            (New ["A_F=tRuE"]))
     = VBool false
  /\ errorOf (Sample.decode ["A_F=tRuE"] (Basic reflect.Bool) (VBool false) ["A"; "F"]
                            (New ["A_F=tRuE"]))
     = Some (NumError (strconv.syntaxError "ParseBool" "tRuE"))
  /\ LookupEnv ["A_F= x "] (buildEnvVariable ["A"; "F"]) = (" x "%string, true)
  /\ SpecLiteral.value reflect.String " x " = Some (VString "x")
  /\ valueOf (Sample.decode ["A_F= x "] (Basic reflect.String) (VString "") ["A"; "F"]
                            (New ["A_F= x "]))
     = VString " x "
  /\ VString " x " <> VString "x".
Proof. repeat split; try (vm_compute; reflexivity). discriminate. Qed.
